(** * PathKit: the path splitter of CDeps.cpp

    A shallow embedding of [PATPathComponents] and [PATFreePathComponents]
    (src/CDeps.cpp) and the properties of the splitter.

    Modelling conventions.
    - A [const char *path] is the [string] of the bytes stored at [path];
      the terminating NUL follows the last byte, so [path[i]] past the end
      reads NUL, and [strlen] stops at the first NUL it meets.
    - [size_t] values are [nat]: every index of the source is bounded by
      [strlen path], itself bounded by the address space, so no operation
      of the source wraps.  The [int] counter of the copy loop is a [nat]
      as well: it stays below the number of segments, and a path of 2^31
      segments or more is outside the model.
    - The free store is a finite map from addresses to objects; [new]
      returns an address that is not in use.  The two out-parameters
      [size_t *count] and [void **temp] designate two cells of the caller,
      kept next to the free store in [state].
    - An operation that C++ leaves undefined (indexing a vector or an array
      out of range, using an object through a pointer of the wrong type,
      deleting storage that is not live, releasing with [delete] storage
      that was made by [new[]]) yields [None].  Allocation never fails. *)

From Stdlib Require Import Strings.String Strings.Ascii.
From Equations Require Import Equations.
From stdpp Require Import gmap strings list.

Local Open Scope string_scope.

(** ** Characters and C strings *)

Definition NUL : ascii := Ascii.zero.

Definition is_nul (c : ascii) : bool := Ascii.eqb c NUL.

(** [c == '/'] *)
Definition is_slash (c : ascii) : bool := Ascii.eqb c "/"%char.

(** [path[i]] *)
Definition char_at (path : string) (i : nat) : ascii :=
  match String.get i path with
  | Some c => c
  | None => NUL
  end.

(** [strlen(path)] *)
Fixpoint strlen (path : string) : nat :=
  match path with
  | EmptyString => 0
  | String c rest => if is_nul c then 0 else S (strlen rest)
  end.

(** The characters of the C string at [path]: those before the first NUL. *)
Definition text (path : string) : string :=
  substring 0 (strlen path) path.

(** ** Memory *)

Abbreviation addr := nat (only parsing).

Inductive ptr : Type :=
| NULL
| Obj (a : addr)               (* the address of an object made by new *)
| CStr (v : addr) (i : nat).   (* the c_str() of element i of the vector at v *)

Inductive object : Type :=
| VectorString (elems : list string)        (* new vector<string>() *)
| CharPtrArray (cells : list (option ptr))  (* new const char *[n]; None: not yet written *)
| CharPtr (cell : option ptr).              (* new const char *, a single pointer *)

Record state : Type := mkState {
  heap : gmap addr object;   (* the free store *)
  count : nat;               (* the cell *count *)
  temp : ptr                 (* the cell *temp *)
}.

Global Instance ptr_eq_dec : EqDecision ptr.
Proof. solve_decision. Defined.

Definition set_heap (h : gmap addr object) (st : state) : state :=
  mkState h (count st) (temp st).

Definition set_count (n : nat) (st : state) : state :=
  mkState (heap st) n (temp st).

(** ** Computations on the state that may be undefined *)

Definition M (A : Type) : Type := state -> option (A * state).

Global Instance M_ret : MRet M := fun A (a : A) st => Some (a, st).

Global Instance M_bind : MBind M := fun A B (k : A -> M B) (m : M A) st =>
  match m st with
  | Some (a, st') => k a st'
  | None => None
  end.

(** [new vector<string>()] *)
Definition new_vector : M addr := fun st =>
  let a := fresh (dom (heap st)) in
  Some (a, set_heap (<[a := VectorString []]> (heap st)) st).

(** [strings->push_back(s)] *)
Definition push_back (strings : addr) (s : string) : M unit := fun st =>
  match heap st !! strings with
  | Some (VectorString elems) =>
      Some (tt, set_heap (<[strings := VectorString (elems ++ [s])]> (heap st)) st)
  | _ => None
  end.

(** [strings->size()] *)
Definition size (strings : addr) : M nat := fun st =>
  match heap st !! strings with
  | Some (VectorString elems) => Some (length elems, st)
  | _ => None
  end.

(** [( *strings)[i].c_str()] *)
Definition c_str (strings : addr) (i : nat) : M ptr := fun st =>
  match heap st !! strings with
  | Some (VectorString elems) =>
      if decide (i < length elems) then Some (CStr strings i, st) else None
  | _ => None
  end.

(** [new const char *[n]] *)
Definition new_array (n : nat) : M addr := fun st =>
  let a := fresh (dom (heap st)) in
  Some (a, set_heap (<[a := CharPtrArray (replicate n None)]> (heap st)) st).

(** [components[i] = p] *)
Definition store (components : addr) (i : nat) (p : ptr) : M unit := fun st =>
  match heap st !! components with
  | Some (CharPtrArray cells) =>
      if decide (i < length cells)
      then Some (tt, set_heap (<[components := CharPtrArray (<[i := Some p]> cells)]> (heap st)) st)
      else None
  | _ => None
  end.

(** [*count = n] *)
Definition store_count (n : nat) : M unit := fun st =>
  Some (tt, set_count n st).

(** ** The loops of PATPathComponents *)

Definition inspect {A} (a : A) : {b : A | a = b} := exist _ a eq_refl.

(** [while (curPos < endPos && path[curPos] == '/') curPos++;] *)
Equations? skip_separators (path : string) (endPos curPos : nat) : nat
  by wf (endPos - curPos) lt :=
  skip_separators path endPos curPos
    with inspect ((curPos <? endPos)%nat && is_slash (char_at path curPos)) := {
    | exist _ true Hc => skip_separators path endPos (S curPos)
    | exist _ false _ => curPos }.
Proof.
  apply andb_prop in Hc as [Hlt _]. apply Nat.ltb_lt in Hlt. lia.
Defined.

(** [while (curEnd < endPos && path[curEnd] != '/') curEnd++;] *)
Equations? scan_segment (path : string) (endPos curEnd : nat) : nat
  by wf (endPos - curEnd) lt :=
  scan_segment path endPos curEnd
    with inspect ((curEnd <? endPos)%nat && negb (is_slash (char_at path curEnd))) := {
    | exist _ true Hc => scan_segment path endPos (S curEnd)
    | exist _ false _ => curEnd }.
Proof.
  apply andb_prop in Hc as [Hlt _]. apply Nat.ltb_lt in Hlt. lia.
Defined.

(** One turn of each inner loop, and where the loops stop; the main loop
    terminates by these. *)

Lemma skip_separators_step path endPos curPos :
  skip_separators path endPos curPos =
  if (curPos <? endPos)%nat && is_slash (char_at path curPos)
  then skip_separators path endPos (S curPos) else curPos.
Proof.
  funelim (skip_separators path endPos curPos);
    match goal with H : _ && _ = _ |- _ => rewrite H end; reflexivity.
Qed.

Lemma scan_segment_step path endPos curEnd :
  scan_segment path endPos curEnd =
  if (curEnd <? endPos)%nat && negb (is_slash (char_at path curEnd))
  then scan_segment path endPos (S curEnd) else curEnd.
Proof.
  funelim (scan_segment path endPos curEnd);
    match goal with H : _ && _ = _ |- _ => rewrite H end; reflexivity.
Qed.

Lemma skip_separators_stop path endPos curPos :
  curPos <= skip_separators path endPos curPos /\
  (skip_separators path endPos curPos <? endPos)%nat
  && is_slash (char_at path (skip_separators path endPos curPos)) = false.
Proof.
  remember (endPos - curPos) as n eqn:Hn.
  revert curPos Hn. induction n as [n IH] using lt_wf_ind. intros curPos Hn.
  rewrite skip_separators_step.
  destruct ((curPos <? endPos)%nat && is_slash (char_at path curPos)) eqn:Hc.
  - apply andb_prop in Hc as [Hlt _]. apply Nat.ltb_lt in Hlt.
    destruct (IH (endPos - S curPos) ltac:(lia) (S curPos) eq_refl) as [Hge Hst].
    split; [lia | exact Hst].
  - split; [lia | exact Hc].
Qed.

Lemma scan_segment_ge path endPos curEnd :
  curEnd <= scan_segment path endPos curEnd.
Proof.
  remember (endPos - curEnd) as n eqn:Hn.
  revert curEnd Hn. induction n as [n IH] using lt_wf_ind. intros curEnd Hn.
  rewrite scan_segment_step.
  destruct ((curEnd <? endPos)%nat && negb (is_slash (char_at path curEnd))) eqn:Hc;
    [| lia].
  apply andb_prop in Hc as [Hlt _]. apply Nat.ltb_lt in Hlt.
  pose proof (IH (endPos - S curEnd) ltac:(lia) (S curEnd) eq_refl). lia.
Qed.

Lemma scan_segment_gt path endPos curPos :
  curPos < endPos -> is_slash (char_at path curPos) = false ->
  curPos < scan_segment path endPos curPos.
Proof.
  intros Hlt Hs. rewrite scan_segment_step.
  rewrite Hs, (proj2 (Nat.ltb_lt _ _) Hlt). simpl.
  pose proof (scan_segment_ge path endPos (S curPos)). lia.
Qed.

(** The main loop: [while (curPos < endPos) { ... }], with its [break]. *)
Equations? scan_loop (path : string) (endPos : nat) (strings : addr)
    (curPos : nat) (st : state) : option (unit * state)
  by wf (endPos - curPos) lt :=
  scan_loop path endPos strings curPos st with inspect (curPos <? endPos)%nat := {
    | exist _ false _ => Some (tt, st)
    | exist _ true Hlt with inspect (skip_separators path endPos curPos) := {
      | exist _ curPos1 Hskip with inspect (curPos1 =? endPos)%nat := {
        | exist _ true _ => Some (tt, st)      (* break *)
        | exist _ false Hne with inspect (scan_segment path endPos curPos1) := {
          | exist _ curEnd Hseg
              with inspect (push_back strings
                              (substring curPos1 (curEnd - curPos1) path) st) := {
              | exist _ None _ => None
              | exist _ (Some (_, st')) _ =>
                  scan_loop path endPos strings curEnd st' } } } } }.
Proof.
  apply Nat.ltb_lt in Hlt. apply Nat.eqb_neq in Hne. subst curPos1 curEnd.
  destruct (skip_separators_stop path endPos curPos) as [Hge Hstop].
  destruct (Nat.ltb_spec (skip_separators path endPos curPos) endPos) as [Hin|Hout].
  - simpl in Hstop.
    pose proof (scan_segment_gt path endPos _ Hin Hstop). lia.
  - pose proof (scan_segment_ge path endPos (skip_separators path endPos curPos)). lia.
Defined.

(** The length of the vector at [strings], the variant of the copy loop. *)
Definition vector_length (strings : addr) (st : state) : nat :=
  match heap st !! strings with
  | Some (VectorString elems) => length elems
  | _ => 0
  end.

Lemma size_Some strings st n st1 :
  size strings st = Some (n, st1) -> st1 = st /\ n = vector_length strings st.
Proof.
  unfold size, vector_length. destruct (heap st !! strings) as [[elems|cells|cell]|];
    intros H; inversion H; auto.
Qed.

Lemma copy_step_length strings components i st r st2 :
  (p ← c_str strings i; store components i p) st = Some (r, st2) ->
  vector_length strings st2 = vector_length strings st.
Proof.
  unfold mbind, M_bind, c_str, store, vector_length.
  destruct (heap st !! strings) as [[elems|cells|cell]|] eqn:Hs; try discriminate.
  destruct (decide (i < length elems)); try discriminate.
  destruct (heap st !! components) as [[elems'|cells|cell]|] eqn:Hc; try discriminate.
  destruct (decide (i < length cells)); try discriminate.
  intros H; inversion H; subst; simpl.
  rewrite lookup_insert_ne by congruence. rewrite Hs. reflexivity.
Qed.

(** [for (int i = 0; i < strings->size(); i++)
       components[i] = ( *strings)[i].c_str();] *)
Equations? copy_loop (strings components : addr) (i : nat) (st : state) :
    option (unit * state)
  by wf (vector_length strings st - i) lt :=
  copy_loop strings components i st with inspect (size strings st) := {
    | exist _ None _ => None
    | exist _ (Some (n, st1)) Hn with inspect (i <? n)%nat := {
      | exist _ false _ => Some (tt, st1)
      | exist _ true Hlt
          with inspect ((p ← c_str strings i; store components i p) st1) := {
          | exist _ None _ => None
          | exist _ (Some (_, st2)) Hbody =>
              copy_loop strings components (S i) st2 } } }.
Proof.
  apply size_Some in Hn as [-> ->]. apply Nat.ltb_lt in Hlt.
  apply copy_step_length in Hbody. lia.
Defined.

(** ** The two functions of CDeps.cpp *)

Definition PATPathComponents (path : string) : M ptr :=
  if is_nul (char_at path 0) then
    store_count 0;;
    mret NULL
  else
    strings ← new_vector;
    let curPos := 0 in
    let endPos := strlen path in
    (if is_slash (char_at path curPos)
     then push_back strings "/" else mret tt);;
    scan_loop path endPos strings curPos;;
    (if (1 <? endPos)%nat && is_slash (char_at path (endPos - 1))
     then push_back strings "/" else mret tt);;
    n ← size strings;
    components ← new_array n;
    copy_loop strings components 0;;
    n ← size strings;
    store_count n;;
    mret (Obj components).

(** [delete p], for [p] of a pointer type whose objects satisfy [expected]:
    nothing for a null pointer, undefined when [p] is not the address of a
    live object of that type made by [new]. *)
Definition delete_ptr (expected : object -> bool) (p : ptr) : M unit := fun st =>
  match p with
  | NULL => Some (tt, st)
  | Obj a =>
      match heap st !! a with
      | Some o => if expected o then Some (tt, set_heap (delete a (heap st)) st)
                  else None
      | None => None
      end
  | CStr _ _ => None
  end.

(** What [delete] may release through a [const char **]: a single
    [const char *] made by [new].  An array made by [new[]] is not one. *)
Definition is_single_pointer (o : object) : bool :=
  match o with CharPtr _ => true | _ => false end.

Definition is_vector (o : object) : bool :=
  match o with VectorString _ => true | _ => false end.

(** [delete components;] with [components] a [const char **] *)
Definition delete_components (components : ptr) : M unit :=
  delete_ptr is_single_pointer components.

(** [delete array;] with [array] a [vector<string> *] *)
Definition delete_array (array : ptr) : M unit :=
  delete_ptr is_vector array.

Definition PATFreePathComponents (components : ptr) (temp : ptr) : M unit :=
  delete_components components;;
  let array := temp in
  delete_array array.

(** ** The operations as the specification names them *)

(** The string a [const char *] of the result points to. *)
Definition deref (st : state) (p : ptr) : option string :=
  match p with
  | CStr v i =>
      match heap st !! v with
      | Some (VectorString elems) => elems !! i
      | _ => None
      end
  | _ => None
  end.

(** The sequence of strings behind the returned array: every cell of the
    array object, read through its pointer; a null result is the empty
    sequence. *)
Definition segments (st : state) (components : ptr) : option (list string) :=
  match components with
  | NULL => Some []
  | Obj a =>
      match heap st !! a with
      | Some (CharPtrArray cells) => mapM (fun c => c ≫= deref st) cells
      | _ => None
      end
  | CStr _ _ => None
  end.

(** [split(path) -> (segments, count, storageHandle)] *)
Definition split (path : string) (st : state) : option (list string * nat * ptr) :=
  '(components, st') ← PATPathComponents path st;
  segs ← segments st' components;
  Some (segs, count st', temp st').

(** [release(segments, storageHandle)] *)
Definition release (components : ptr) (storageHandle : ptr) : M unit :=
  PATFreePathComponents components storageHandle.

(** The state of a caller that holds nothing on the free store. *)
Definition st0 : state := mkState ∅ 0 NULL.

(** ** The notions the specification uses *)

(** The pieces of [s] between separators, empty ones included. *)
Fixpoint fields (s : string) : list string :=
  match s with
  | EmptyString => [""]
  | String c s' =>
      if is_slash c then "" :: fields s'
      else match fields s' with
           | f :: fs => String c f :: fs
           | [] => [String c ""]
           end
  end.

(** [s] has no '/'. *)
Fixpoint slash_free (s : string) : bool :=
  match s with
  | EmptyString => true
  | String c s' => negb (is_slash c) && slash_free s'
  end.

(** The maximal runs of characters other than '/', in order of appearance:
    the pieces between separators that are not empty. *)
Definition maximal_runs (s : string) : list string :=
  filter (fun f => f <> "") (fields s).

(** The same notion, stated on the path itself: reading [s] from the left,
    a separator is passed over, and a run is a non-empty stretch without
    '/' that is followed by a separator or by the end of [s]. *)
Inductive runs_of : string -> list string -> Prop :=
| runs_of_end : runs_of "" []
| runs_of_separator s rs :
    runs_of s rs -> runs_of (String "/" s) rs
| runs_of_run r s rs :
    r <> "" -> slash_free r = true ->
    s = "" \/ (exists s', s = String "/" s') ->
    runs_of s rs -> runs_of (r ++ s) (r :: rs).

(** The path made of [n] separators. *)
Fixpoint slashes (n : nat) : string :=
  match n with
  | 0 => ""
  | S n' => String "/" (slashes n')
  end.

(** A segment that is the root marker. *)
Definition is_root (seg : string) : bool := String.eqb seg "/".

(** Joining segments: a single '/' between two adjacent segments neither of
    which is the root marker, nothing next to a root marker. *)
Fixpoint join (segs : list string) : string :=
  match segs with
  | [] => ""
  | a :: rest =>
      match rest with
      | [] => a
      | b :: _ => a ++ (if is_root a || is_root b then "" else "/") ++ join rest
      end
  end.

(** Collapsing every run of repeated separators into one. *)
Fixpoint collapse (s : string) : string :=
  match s with
  | EmptyString => ""
  | String a s' =>
      match s' with
      | String b _ =>
          if is_slash a && is_slash b then collapse s'
          else String a (collapse s')
      | EmptyString => String a ""
      end
  end.

(** Two paths are equivalent when they differ by repeated separators only. *)
Definition path_equiv (p q : string) : Prop := collapse p = collapse q.

(** ** Auxiliary notions of the proofs *)

(** What the main loop has still to read when it stands at [i]. *)
Definition unread (path : string) (endPos i : nat) : string :=
  substring i (endPos - i) path.

(** The segments the function collects, phase by phase: the leading root
    marker, the runs found by the main loop, the trailing root marker. *)
Definition collected (path : string) : list string :=
  (if is_slash (char_at path 0) then ["/"] else []) ++
  maximal_runs (text path) ++
  (if (1 <? strlen path)%nat && is_slash (char_at path (strlen path - 1))
   then ["/"] else []).

(** [s] starts with '/'; [s] ends with '/'. *)
Definition starts_slash (s : string) : bool :=
  match s with
  | String c _ => is_slash c
  | EmptyString => false
  end.

Fixpoint ends_slash (s : string) : bool :=
  match s with
  | EmptyString => false
  | String c s' =>
      match s' with
      | EmptyString => is_slash c
      | String _ _ => ends_slash s'
      end
  end.

(** The runs with a single '/' between them. *)
Fixpoint sep_join (rs : list string) : string :=
  match rs with
  | [] => ""
  | r :: rest =>
      match rest with
      | [] => r
      | _ :: _ => r ++ "/" ++ sep_join rest
      end
  end.

(** The canonical form of a path: its runs, a single '/' between them, and
    the separators it starts and ends with. *)
Definition canonical (s : string) : string :=
  (if starts_slash s then "/" else "") ++
  sep_join (maximal_runs s) ++
  (if ends_slash s && bool_decide (maximal_runs s <> []) then "/" else "").

(** [s] has no NUL. *)
Fixpoint nul_free (s : string) : bool :=
  match s with
  | EmptyString => true
  | String c s' => negb (is_nul c) && nul_free s'
  end.

(** The number of '/' in [s]. *)
Fixpoint separators (s : string) : nat :=
  match s with
  | EmptyString => 0
  | String c s' => (if is_slash c then 1 else 0) + separators s'
  end.

(** The segments of a text: [collected], read on the characters of the
    C string rather than through [strlen] and indices. *)
Definition text_segments (t : string) : list string :=
  (if starts_slash t then ["/"] else []) ++
  maximal_runs t ++
  (if (1 <? String.length t)%nat && ends_slash t then ["/"] else []).

(** * Properties *)

(** ** C strings *)

Lemma strlen_le_length path : strlen path <= String.length path.
Proof.
  induction path as [|c rest IH]; simpl; [lia|].
  destruct (is_nul c); lia.
Qed.

Lemma strlen_zero path : strlen path = 0 <-> is_nul (char_at path 0) = true.
Proof.
  destruct path as [|c rest]; simpl.
  - split; reflexivity.
  - unfold char_at; simpl. destruct (is_nul c); split; congruence.
Qed.

Lemma substring_zero i s : substring i 0 s = "".
Proof.
  revert s. induction i as [|i IH]; intros [|c s]; simpl; auto.
Qed.

Lemma substring_uncons s i n :
  i < String.length s ->
  substring i (S n) s = String (char_at s i) (substring (S i) n s).
Proof.
  revert i. induction s as [|c s IH]; intros i Hi; simpl in Hi; [lia|].
  destruct i as [|i].
  - reflexivity.
  - simpl. rewrite IH by lia. unfold char_at. simpl. reflexivity.
Qed.

Lemma text_slashes n : strlen (slashes n) = n /\ text (slashes n) = slashes n.
Proof.
  unfold text. induction n as [|n [IH1 IH2]]; simpl; [auto|].
  rewrite IH1 in IH2 |- *. split; [reflexivity|]. f_equal. exact IH2.
Qed.

(** ** Fields and runs *)

Lemma fields_not_nil s : fields s <> [].
Proof.
  destruct s as [|c s]; simpl; [discriminate|].
  destruct (is_slash c); [discriminate|]. destruct (fields s); discriminate.
Qed.

Lemma maximal_runs_slash c s :
  is_slash c = true -> maximal_runs (String c s) = maximal_runs s.
Proof.
  intros Hc. unfold maximal_runs. simpl. rewrite Hc.
  rewrite filter_cons_False by (intros H; apply H; reflexivity). reflexivity.
Qed.

Lemma maximal_runs_nonempty s : Forall (fun f => f <> "") (maximal_runs s).
Proof.
  unfold maximal_runs. apply Forall_forall. intros f Hf.
  apply list_elem_of_filter in Hf as [Hf _]. exact Hf.
Qed.

Lemma fields_slash_free s : Forall (fun f => slash_free f = true) (fields s).
Proof.
  induction s as [|c s IH]; simpl.
  - repeat constructor.
  - destruct (is_slash c) eqn:Hc.
    + constructor; [reflexivity | exact IH].
    + destruct (fields s) as [|f fs]; inversion IH; subst; constructor; simpl;
        rewrite ?Hc; simpl; auto.
Qed.

Lemma maximal_runs_slash_free s :
  Forall (fun f => slash_free f = true) (maximal_runs s).
Proof.
  unfold maximal_runs. apply Forall_forall. intros f Hf.
  apply list_elem_of_filter in Hf as [_ Hf].
  exact (proj1 (Forall_forall _ _) (fields_slash_free s) f Hf).
Qed.

Lemma slash_free_not_root f : slash_free f = true -> is_root f = false.
Proof.
  intros Hf. unfold is_root. apply String.eqb_neq. intros ->. discriminate.
Qed.

Lemma maximal_runs_slashes n : maximal_runs (slashes n) = [].
Proof.
  induction n as [|n IH]; [reflexivity|].
  simpl slashes. rewrite maximal_runs_slash by reflexivity. exact IH.
Qed.

(** ** The loops, in terms of the path read so far *)

Section Scan.

Variable path : string.
Variable endPos : nat.
Hypothesis endPos_in : endPos <= String.length path.

Lemma unread_end i : endPos <= i -> unread path endPos i = "".
Proof.
  intros Hi. unfold unread. replace (endPos - i) with 0 by lia.
  apply substring_zero.
Qed.

Lemma unread_uncons i :
  i < endPos -> unread path endPos i = String (char_at path i) (unread path endPos (S i)).
Proof.
  intros Hi. unfold unread.
  replace (endPos - i) with (S (endPos - S i)) by lia.
  apply substring_uncons. lia.
Qed.

Lemma skip_separators_runs curPos :
  curPos <= endPos ->
  skip_separators path endPos curPos <= endPos /\
  maximal_runs (unread path endPos (skip_separators path endPos curPos))
  = maximal_runs (unread path endPos curPos).
Proof.
  remember (endPos - curPos) as n eqn:Hn.
  revert curPos Hn. induction n as [n IH] using lt_wf_ind. intros curPos Hn Hle.
  rewrite skip_separators_step.
  destruct ((curPos <? endPos)%nat && is_slash (char_at path curPos)) eqn:Hc;
    [| auto].
  apply andb_prop in Hc as [Hlt Hs]. apply Nat.ltb_lt in Hlt.
  destruct (IH (endPos - S curPos) ltac:(lia) (S curPos) eq_refl ltac:(lia))
    as [Hin Hruns].
  split; [exact Hin|]. rewrite Hruns, (unread_uncons curPos Hlt).
  symmetry. apply maximal_runs_slash. exact Hs.
Qed.

Lemma scan_segment_fields curEnd :
  curEnd <= endPos ->
  let e := scan_segment path endPos curEnd in
  e <= endPos /\
  head (fields (unread path endPos e)) = Some "" /\
  fields (unread path endPos curEnd)
  = substring curEnd (e - curEnd) path :: tail (fields (unread path endPos e)).
Proof.
  remember (endPos - curEnd) as n eqn:Hn.
  revert curEnd Hn. induction n as [n IH] using lt_wf_ind. intros curEnd Hn Hle.
  simpl. rewrite scan_segment_step.
  destruct (Nat.ltb_spec curEnd endPos) as [Hlt|Hge]; simpl.
  - rewrite (unread_uncons curEnd Hlt).
    destruct (is_slash (char_at path curEnd)) eqn:Hs; simpl.
    + rewrite (unread_uncons curEnd Hlt). simpl. rewrite Hs.
      rewrite Nat.sub_diag, substring_zero. auto.
    + destruct (IH (endPos - S curEnd) ltac:(lia) (S curEnd) eq_refl ltac:(lia))
        as (Hin & Hhd & Hfs).
      pose proof (scan_segment_ge path endPos (S curEnd)) as Hge.
      split; [exact Hin|]. split; [exact Hhd|].
      rewrite Hs, Hfs.
      replace (scan_segment path endPos (S curEnd) - curEnd)
        with (S (scan_segment path endPos (S curEnd) - S curEnd)) by lia.
      rewrite substring_uncons by lia. reflexivity.
  - rewrite (unread_end curEnd) by lia.
    rewrite Nat.sub_diag, substring_zero. auto.
Qed.

Lemma scan_segment_runs curPos :
  curPos < endPos -> is_slash (char_at path curPos) = false ->
  let curEnd := scan_segment path endPos curPos in
  curEnd <= endPos /\
  maximal_runs (unread path endPos curPos)
  = substring curPos (curEnd - curPos) path :: maximal_runs (unread path endPos curEnd).
Proof.
  intros Hlt Hs.
  destruct (scan_segment_fields curPos ltac:(lia)) as (Hin & Hhd & Hfs).
  pose proof (scan_segment_gt path endPos curPos Hlt Hs) as Hgt.
  simpl. split; [exact Hin|].
  unfold maximal_runs. rewrite Hfs.
  destruct (fields (unread path endPos (scan_segment path endPos curPos))) as [|f fs];
    [discriminate|].
  simpl in Hhd. inversion Hhd; subst f. simpl.
  rewrite (filter_cons_False _ "") by (intros H; apply H; reflexivity).
  rewrite filter_cons_True; [reflexivity|].
  replace (scan_segment path endPos curPos - curPos)
    with (S (scan_segment path endPos curPos - S curPos)) by lia.
  rewrite substring_uncons by lia. discriminate.
Qed.

End Scan.

(** ** One turn of the main loop and of the copy loop *)

Lemma scan_loop_step path endPos strings curPos st :
  scan_loop path endPos strings curPos st =
  if (curPos <? endPos)%nat then
    let curPos1 := skip_separators path endPos curPos in
    if (curPos1 =? endPos)%nat then Some (tt, st)
    else
      let curEnd := scan_segment path endPos curPos1 in
      match push_back strings (substring curPos1 (curEnd - curPos1) path) st with
      | Some (_, st') => scan_loop path endPos strings curEnd st'
      | None => None
      end
  else Some (tt, st).
Proof.
  funelim (scan_loop path endPos strings curPos st); subst; simpl.
  all: repeat match goal with
         | H : (_ <? _)%nat = _ |- _ => rewrite H
         | H : (_ =? _)%nat = _ |- _ => rewrite H
         | H : push_back _ _ _ = _ |- _ => rewrite H
         end; reflexivity.
Qed.

Lemma copy_loop_step strings components i st :
  copy_loop strings components i st =
  match size strings st with
  | Some (n, st1) =>
      if (i <? n)%nat then
        match (p ← c_str strings i; store components i p) st1 with
        | Some (_, st2) => copy_loop strings components (S i) st2
        | None => None
        end
      else Some (tt, st1)
  | None => None
  end.
Proof.
  funelim (copy_loop strings components i st); subst; simpl.
  all: repeat match goal with
         | H : size _ _ = _ |- _ => rewrite H
         | H : (_ <? _)%nat = _ |- _ => rewrite H
         | H : mbind _ _ _ = _ |- _ => rewrite H
         end; reflexivity.
Qed.

(** ** What the loops leave on the free store *)

Lemma set_heap_id st : set_heap (heap st) st = st.
Proof. destruct st; reflexivity. Qed.

Lemma maximal_runs_empty : maximal_runs "" = [].
Proof. reflexivity. Qed.

Lemma scan_loop_spec path endPos strings :
  endPos <= String.length path ->
  forall curPos st elems,
    curPos <= endPos ->
    heap st !! strings = Some (VectorString elems) ->
    scan_loop path endPos strings curPos st
    = Some (tt, set_heap (<[strings := VectorString
                             (elems ++ maximal_runs (unread path endPos curPos))]>
                            (heap st)) st).
Proof.
  intros Hend curPos. remember (endPos - curPos) as n eqn:Hn.
  revert curPos Hn. induction n as [n IH] using lt_wf_ind.
  intros curPos Hn st elems Hle Hv.
  assert (Hstay : forall i, endPos <= i ->
            Some (tt, st) = Some (tt, set_heap (<[strings := VectorString
                     (elems ++ maximal_runs (unread path endPos i))]> (heap st)) st)).
  { intros i Hi. rewrite unread_end, maximal_runs_empty, app_nil_r by lia.
    rewrite insert_id by exact Hv. rewrite set_heap_id. reflexivity. }
  rewrite scan_loop_step.
  destruct (Nat.ltb_spec curPos endPos) as [Hlt|Hge]; [| apply Hstay; lia].
  destruct (skip_separators_runs path endPos Hend curPos Hle) as [Hin Hruns].
  destruct (skip_separators_stop path endPos curPos) as [Hge Hstop].
  simpl. rewrite <- Hruns.
  destruct (Nat.eqb_spec (skip_separators path endPos curPos) endPos) as [Heq|Hne];
    [apply Hstay; lia|].
  assert (Hlt1 : skip_separators path endPos curPos < endPos) by lia.
  rewrite (proj2 (Nat.ltb_lt _ _) Hlt1) in Hstop. simpl in Hstop.
  destruct (scan_segment_runs path endPos Hend _ Hlt1 Hstop) as [Hin2 Hcons].
  pose proof (scan_segment_gt path endPos _ Hlt1 Hstop) as Hgt.
  rewrite Hcons. unfold push_back at 1. rewrite Hv.
  erewrite (IH (endPos - scan_segment path endPos (skip_separators path endPos curPos)));
    [| lia | reflexivity | exact Hin2 | simpl; apply lookup_insert_eq].
  unfold set_heap; simpl. rewrite insert_insert_eq, <- app_assoc. reflexivity.
Qed.

Lemma copy_loop_spec strings components elems :
  strings <> components ->
  forall todo done st,
    heap st !! strings = Some (VectorString elems) ->
    heap st !! components = Some (CharPtrArray (done ++ todo)) ->
    length done + length todo = length elems ->
    copy_loop strings components (length done) st
    = Some (tt, set_heap (<[components := CharPtrArray
                             (done ++ ((fun i => Some (CStr strings i))
                                         <$> seq (length done) (length todo)))]>
                            (heap st)) st).
Proof.
  intros Hneq todo. induction todo as [|c todo IH]; intros done st Hv Ha Hlen.
  - rewrite copy_loop_step. unfold size. rewrite Hv.
    simpl in Hlen. rewrite (proj2 (Nat.ltb_ge _ _)) by lia.
    simpl. rewrite insert_id by exact Ha. rewrite set_heap_id. reflexivity.
  - rewrite copy_loop_step. unfold size. rewrite Hv.
    simpl in Hlen. rewrite (proj2 (Nat.ltb_lt _ _)) by lia.
    unfold mbind, M_bind, c_str, store. rewrite Hv.
    rewrite decide_True by lia. rewrite Ha.
    rewrite decide_True by (rewrite length_app; simpl; lia).
    replace (<[length done := Some (CStr strings (length done))]> (done ++ c :: todo)%list)
      with ((done ++ [Some (CStr strings (length done))]) ++ todo)%list.
    2:{ rewrite <- (Nat.add_0_r (length done)) at 2.
        rewrite insert_app_r. simpl. rewrite <- app_assoc. reflexivity. }
    specialize (IH (done ++ [Some (CStr strings (length done))])%list).
    rewrite length_app in IH. simpl in IH.
    replace (S (length done)) with (length done + 1) by lia.
    rewrite IH.
    + unfold set_heap; simpl. rewrite insert_insert_eq.
      rewrite <- app_assoc. simpl.
      replace (length done + 1) with (S (length done)) by lia. reflexivity.
    + simpl. rewrite lookup_insert_ne by congruence. exact Hv.
    + simpl. apply lookup_insert_eq.
    + lia.
Qed.

(** ** The function as a whole *)

Lemma push_back_spec strings s st elems :
  heap st !! strings = Some (VectorString elems) ->
  push_back strings s st
  = Some (tt, set_heap (<[strings := VectorString (elems ++ [s])]> (heap st)) st).
Proof. intros Hv. unfold push_back. rewrite Hv. reflexivity. Qed.

Lemma push_back_if_spec (b : bool) strings s st elems :
  heap st !! strings = Some (VectorString elems) ->
  (if b then push_back strings s else mret tt) st
  = Some (tt, set_heap (<[strings := VectorString (elems ++ if b then [s] else [])]>
                          (heap st)) st).
Proof.
  intros Hv. destruct b.
  - apply push_back_spec, Hv.
  - rewrite app_nil_r, insert_id by exact Hv. rewrite set_heap_id. reflexivity.
Qed.

Lemma PATPathComponents_nonempty path st :
  is_nul (char_at path 0) = false ->
  let strings := fresh (dom (heap st)) in
  let h1 := <[strings := VectorString (collected path)]> (heap st) in
  let components := fresh (dom h1) in
  PATPathComponents path st
  = Some (Obj components,
          mkState
            (<[components := CharPtrArray
                 ((fun i => Some (CStr strings i)) <$> seq 0 (length (collected path)))]>
               h1)
            (length (collected path)) (temp st)).
Proof.
  intros Hne strings h1 components.
  unfold PATPathComponents. rewrite Hne.
  unfold mbind at 1, M_bind at 1, new_vector. fold strings.
  set (st1 := set_heap (<[strings := VectorString []]> (heap st)) st).
  assert (Hv1 : heap st1 !! strings = Some (VectorString [])) by apply lookup_insert_eq.
  unfold mbind at 1, M_bind at 1.
  rewrite (push_back_if_spec _ _ _ _ _ Hv1). simpl app.
  set (st2 := set_heap _ st1).
  assert (Hv2 : heap st2 !! strings
                = Some (VectorString (if is_slash (char_at path 0) then ["/"] else [])))
    by apply lookup_insert_eq.
  unfold mbind at 1, M_bind at 1.
  rewrite (scan_loop_spec path (strlen path) strings (strlen_le_length path)
             0 st2 _ ltac:(lia) Hv2).
  set (st3 := set_heap _ st2).
  assert (Hv3 : heap st3 !! strings
                = Some (VectorString ((if is_slash (char_at path 0) then ["/"] else [])
                                      ++ maximal_runs (text path)))).
  { unfold st3. simpl. rewrite lookup_insert_eq. unfold unread, text.
    rewrite Nat.sub_0_r. reflexivity. }
  unfold mbind at 1, M_bind at 1.
  rewrite (push_back_if_spec _ _ _ _ _ Hv3). rewrite <- app_assoc. fold (collected path).
  set (st4 := set_heap _ st3).
  assert (Hh4 : heap st4 = h1).
  { unfold st4, st3, st2, st1, h1. simpl. rewrite !insert_insert_eq. reflexivity. }
  assert (Hv4 : heap st4 !! strings = Some (VectorString (collected path))).
  { rewrite Hh4. apply lookup_insert_eq. }
  unfold mbind at 1, M_bind at 1. unfold size at 1. rewrite Hv4.
  unfold mbind at 1, M_bind at 1, new_array. rewrite Hh4. fold components.
  set (st5 := set_heap _ st4).
  assert (Hfresh : strings <> components).
  { intros Heq. apply (is_fresh (dom h1)). fold components. rewrite <- Heq.
    unfold h1. rewrite dom_insert_L. set_solver. }
  assert (Hv5 : heap st5 !! strings = Some (VectorString (collected path))).
  { unfold st5. simpl. rewrite lookup_insert_ne by congruence.
    unfold h1. apply lookup_insert_eq. }
  unfold mbind at 1, M_bind at 1.
  pose proof (copy_loop_spec strings components (collected path) Hfresh
                (replicate (length (collected path)) None) [] st5 Hv5) as Hcopy.
  simpl in Hcopy. rewrite Hcopy;
    [| unfold st5; simpl; apply lookup_insert_eq | apply length_replicate ].
  unfold mbind at 1, M_bind at 1. unfold size at 1. simpl.
  rewrite lookup_insert_ne by congruence. simpl.
  rewrite lookup_insert_ne by congruence.
  unfold h1 at 1. rewrite lookup_insert_eq.
  unfold mbind, M_bind, store_count, mret, M_ret, set_count, set_heap. simpl.
  rewrite insert_insert_eq, length_replicate. reflexivity.
Qed.

Lemma PATPathComponents_empty path st :
  is_nul (char_at path 0) = true ->
  PATPathComponents path st = Some (NULL, set_count 0 st).
Proof.
  intros Hnul. unfold PATPathComponents. rewrite Hnul. reflexivity.
Qed.

Lemma collected_empty path :
  is_nul (char_at path 0) = true -> collected path = [].
Proof.
  intros Hnul. pose proof (proj2 (strlen_zero path) Hnul) as Hlen.
  unfold collected, text. rewrite Hlen. simpl.
  unfold is_nul in Hnul. apply Ascii.eqb_eq in Hnul. rewrite Hnul.
  destruct path; reflexivity.
Qed.

(** Reading the strings back through an array of [c_str()] pointers. *)
Lemma segments_c_str st strings elems :
  heap st !! strings = Some (VectorString elems) ->
  mapM (fun c => c ≫= deref st)
       ((fun i => Some (CStr strings i)) <$> seq 0 (length elems))
  = Some elems.
Proof.
  intros Hv. apply mapM_Some_2, Forall2_same_length_lookup_2.
  - rewrite length_fmap, length_seq. reflexivity.
  - intros i c s Hc Hs. rewrite list_lookup_fmap in Hc.
    destruct (seq 0 (length elems) !! i) as [j|] eqn:Hj; [|discriminate].
    apply lookup_seq in Hj as [-> _]. simpl in Hc. inversion Hc; subst c.
    simpl. rewrite Hv. exact Hs.
Qed.

(** The splitter, start to end: what it returns for every path and every
    state of the caller. *)
Lemma split_spec path st :
  split path st = Some (collected path, length (collected path), temp st).
Proof.
  unfold split. destruct (is_nul (char_at path 0)) eqn:Hnul.
  - rewrite (PATPathComponents_empty path st Hnul), (collected_empty path Hnul).
    reflexivity.
  - rewrite (PATPathComponents_nonempty path st Hnul). simpl.
    rewrite lookup_insert_eq.
    erewrite segments_c_str; [reflexivity|]. simpl.
    rewrite lookup_insert_ne.
    + apply lookup_insert_eq.
    + intros Heq.
      apply (is_fresh (dom (<[fresh (dom (heap st)) := VectorString (collected path)]>
                              (heap st)))).
      rewrite Heq at 1. rewrite dom_insert_L. set_solver.
Qed.

Lemma collected_segments_nonempty path : Forall (fun s => s <> "") (collected path).
Proof.
  unfold collected. rewrite !Forall_app. split; [|split].
  - destruct (is_slash (char_at path 0)); repeat constructor; discriminate.
  - apply maximal_runs_nonempty.
  - destruct (_ && _); repeat constructor; discriminate.
Qed.

(** ** Paths that start a run, paths of separators *)

Lemma text_cons c rest :
  text (String c rest) = if is_nul c then "" else String c (text rest).
Proof. unfold text. simpl. destruct (is_nul c); reflexivity. Qed.

Lemma maximal_runs_head c s :
  is_slash c = false -> maximal_runs (String c s) <> [].
Proof.
  intros Hc. unfold maximal_runs. simpl. rewrite Hc.
  destruct (fields s); rewrite filter_cons_True; discriminate.
Qed.

Lemma char_at_slashes n i : i < n -> char_at (slashes n) i = "/"%char.
Proof.
  revert i. induction n as [|n IH]; intros i Hi; [lia|].
  destruct i as [|i]; [reflexivity|].
  unfold char_at in *. simpl. apply IH. lia.
Qed.

Lemma collected_slashes n : 2 <= n -> collected (slashes n) = ["/"; "/"].
Proof.
  intros Hn. unfold collected.
  destruct (text_slashes n) as [Hlen Htext]. rewrite Hlen, Htext.
  rewrite !char_at_slashes by lia. rewrite maximal_runs_slashes.
  rewrite (proj2 (Nat.ltb_lt 1 n)) by lia. reflexivity.
Qed.

(** ** The canonical form of a path *)

Lemma is_slash_eq c : is_slash c = true -> c = "/"%char.
Proof. apply Ascii.eqb_eq. Qed.

Lemma maximal_runs_single c :
  is_slash c = false -> maximal_runs (String c "") = [String c ""].
Proof. intros Hc. unfold maximal_runs. simpl. rewrite Hc. reflexivity. Qed.

Lemma maximal_runs_before_slash c d s :
  is_slash c = false -> is_slash d = true ->
  maximal_runs (String c (String d s)) = String c "" :: maximal_runs s.
Proof.
  intros Hc Hd. unfold maximal_runs. simpl. rewrite Hc, Hd.
  rewrite filter_cons_True by discriminate. reflexivity.
Qed.

Lemma maximal_runs_extend c d s :
  is_slash c = false -> is_slash d = false ->
  exists r rs,
    maximal_runs (String d s) = r :: rs /\
    maximal_runs (String c (String d s)) = String c r :: rs.
Proof.
  intros Hc Hd. unfold maximal_runs. simpl. rewrite Hc, Hd.
  destruct (fields s) as [|f fs];
    [exists (String d ""), []
    |exists (String d f), (filter (fun f => f <> "") fs)];
    rewrite !filter_cons_True by discriminate; auto.
Qed.

Lemma ends_slash_no_runs s :
  s <> "" -> maximal_runs s = [] -> ends_slash s = true.
Proof.
  induction s as [|c s IH]; intros Hs Hr; [contradiction Hs; reflexivity|].
  destruct (is_slash c) eqn:Hc.
  - rewrite maximal_runs_slash in Hr by exact Hc.
    destruct s as [|d s]; [exact Hc|]. apply IH; [discriminate | exact Hr].
  - contradiction (maximal_runs_head c s Hc).
Qed.

Lemma collapse_cons a b s :
  collapse (String a (String b s))
  = if is_slash a && is_slash b then collapse (String b s)
    else String a (collapse (String b s)).
Proof. reflexivity. Qed.

Lemma collapse_canonical s : collapse s = canonical s.
Proof.
  induction s as [|c s IH]; [reflexivity|].
  unfold canonical in *. destruct (is_slash c) eqn:Hc.
  - rewrite (maximal_runs_slash c s Hc). simpl starts_slash. rewrite Hc.
    destruct s as [|d s]; [simpl; rewrite Hc; apply is_slash_eq in Hc as ->; reflexivity|].
    change (ends_slash (String c (String d s))) with (ends_slash (String d s)).
    rewrite collapse_cons, Hc, IH. simpl starts_slash.
    apply is_slash_eq in Hc as ->.
    destruct (is_slash d) eqn:Hd; reflexivity.
  - simpl starts_slash. rewrite Hc.
    destruct s as [|d s].
    + rewrite maximal_runs_single by exact Hc. simpl. rewrite Hc. reflexivity.
    + change (ends_slash (String c (String d s))) with (ends_slash (String d s)).
      rewrite collapse_cons, Hc. change (false && is_slash d) with false. cbv iota.
      rewrite IH. simpl starts_slash.
      destruct (is_slash d) eqn:Hd.
      * rewrite (maximal_runs_before_slash c d s Hc Hd).
        rewrite (maximal_runs_slash d s Hd).
        destruct (maximal_runs s) as [|r rs] eqn:Hr.
        -- rewrite <- (maximal_runs_slash d s Hd) in Hr.
           rewrite (ends_slash_no_runs (String d s)) by (discriminate || exact Hr).
           reflexivity.
        -- reflexivity.
      * destruct (maximal_runs_extend c d s Hc Hd) as (r & rs & Hr1 & Hr2).
        rewrite Hr1, Hr2. simpl. destruct rs; reflexivity.
Qed.

Lemma collapse_head s :
  starts_slash (collapse s) = starts_slash s /\ (s <> "" -> collapse s <> "").
Proof.
  induction s as [|a s IH]; [split; [reflexivity | intros H; exact H]|].
  destruct s as [|b s]; [split; [reflexivity | discriminate]|].
  rewrite collapse_cons. destruct IH as [IH1 IH2].
  destruct (is_slash a && is_slash b) eqn:Hab; [|split; [reflexivity|discriminate]].
  apply andb_prop in Hab as [Ha Hb]. split.
  - rewrite IH1. simpl. congruence.
  - intros _. apply IH2. discriminate.
Qed.

Lemma collapse_idempotent s : collapse (collapse s) = collapse s.
Proof.
  induction s as [|a s IH]; [reflexivity|].
  destruct s as [|b s]; [reflexivity|].
  rewrite collapse_cons.
  destruct (is_slash a && is_slash b) eqn:Hab; [exact IH|].
  destruct (collapse_head (String b s)) as [Hhd Hne].
  destruct (collapse (String b s)) as [|b' r] eqn:Hr;
    [exfalso; apply Hne; [discriminate | reflexivity]|].
  simpl in Hhd. rewrite collapse_cons, Hhd, Hab, IH. reflexivity.
Qed.

(** ** Joining segments *)

Lemma append_assoc (a b c : string) : (a ++ b) ++ c = a ++ (b ++ c).
Proof.
  induction a as [|x a IH]; [reflexivity|].
  change (String x ((a ++ b) ++ c) = String x (a ++ (b ++ c))). rewrite IH. reflexivity.
Qed.

Lemma append_empty_r (a : string) : a ++ "" = a.
Proof.
  induction a as [|x a IH]; [reflexivity|].
  change (String x (a ++ "") = String x a). rewrite IH. reflexivity.
Qed.

Lemma join_runs rs :
  Forall (fun r => is_root r = false) rs -> join rs = sep_join rs.
Proof.
  induction 1 as [|r rs Hr Hrs IH]; [reflexivity|].
  destruct Hrs as [|r' rs' Hr' Hrs']; [reflexivity|].
  change (join (r :: r' :: rs'))
    with (r ++ (if is_root r || is_root r' then "" else "/") ++ join (r' :: rs')).
  rewrite Hr, Hr', IH. reflexivity.
Qed.

Lemma join_after_root segs :
  segs <> [] -> join ("/" :: segs) = "/" ++ join segs.
Proof. destruct segs; [intros H; contradiction H; reflexivity | reflexivity]. Qed.

Lemma join_before_root segs :
  segs <> [] -> join (segs ++ ["/"]) = join segs ++ "/".
Proof.
  induction segs as [|a segs IH]; [intros H; contradiction H; reflexivity|].
  intros _. destruct segs as [|b segs].
  - simpl. rewrite orb_true_r. reflexivity.
  - change (join ((a :: b :: segs) ++ ["/"]))
      with (a ++ (if is_root a || is_root b then "" else "/")
              ++ join ((b :: segs) ++ ["/"])).
    rewrite IH by discriminate.
    change (join (a :: b :: segs))
      with (a ++ (if is_root a || is_root b then "" else "/") ++ join (b :: segs)).
    rewrite !append_assoc. reflexivity.
Qed.

(** ** The root markers, read on the text of the path *)

Lemma length_text path : String.length (text path) = strlen path.
Proof.
  induction path as [|c rest IH]; [reflexivity|].
  rewrite text_cons. simpl. destruct (is_nul c); simpl; congruence.
Qed.

Lemma char_at_text path i :
  i < strlen path -> char_at (text path) i = char_at path i.
Proof.
  revert i. induction path as [|c rest IH]; intros i Hi; simpl in Hi; [lia|].
  rewrite text_cons. destruct (is_nul c); [lia|].
  destruct i as [|i]; [reflexivity|].
  unfold char_at in *. simpl. apply IH. lia.
Qed.

Lemma starts_slash_text path :
  is_slash (char_at path 0) = starts_slash (text path).
Proof.
  destruct path as [|c rest]; [reflexivity|].
  rewrite text_cons. unfold char_at. simpl.
  destruct (is_nul c) eqn:Hc; [|reflexivity].
  unfold is_nul in Hc. apply Ascii.eqb_eq in Hc. subst c. reflexivity.
Qed.

Lemma ends_slash_char_at s :
  ends_slash s = is_slash (char_at s (String.length s - 1)).
Proof.
  induction s as [|c s IH]; [reflexivity|].
  destruct s as [|d s]; [reflexivity|].
  change (ends_slash (String c (String d s))) with (ends_slash (String d s)).
  rewrite IH. simpl. rewrite Nat.sub_0_r. reflexivity.
Qed.

Lemma ends_slash_text path :
  (1 <? strlen path)%nat && is_slash (char_at path (strlen path - 1))
  = (1 <? String.length (text path))%nat && ends_slash (text path).
Proof.
  rewrite ends_slash_char_at, length_text.
  destruct (Nat.ltb_spec 1 (strlen path)) as [Hlt|Hge]; [|reflexivity].
  rewrite char_at_text by lia. reflexivity.
Qed.

Lemma ends_slash_long s :
  ends_slash s = true -> maximal_runs s <> [] -> 1 < String.length s.
Proof.
  destruct s as [|c [|d s]]; simpl; try discriminate; [|lia].
  intros Hc Hr. rewrite maximal_runs_slash in Hr by exact Hc.
  contradiction Hr. reflexivity.
Qed.

Lemma starts_slash_no_runs s :
  s <> "" -> maximal_runs s = [] -> starts_slash s = true.
Proof.
  destruct s as [|c s]; intros Hs Hr; [contradiction Hs; reflexivity|].
  simpl. destruct (is_slash c) eqn:Hc; [reflexivity|].
  contradiction (maximal_runs_head c s Hc).
Qed.

Lemma maximal_runs_not_root s :
  Forall (fun r => is_root r = false) (maximal_runs s).
Proof.
  eapply Forall_impl; [apply maximal_runs_slash_free|].
  intros r Hr. apply slash_free_not_root, Hr.
Qed.

(** ** The round trip *)

Lemma join_segments_exact s :
  let segs := ((if starts_slash s then ["/"] else []) ++
               maximal_runs s ++
               (if (1 <? String.length s)%nat && ends_slash s then ["/"] else []))%list in
  join segs = collapse s \/ (join segs = "//" /\ collapse s = "/").
Proof.
  simpl. rewrite (collapse_canonical s). unfold canonical.
  destruct (maximal_runs s) as [|r rs] eqn:Hr.
  - destruct s as [|c s]; [left; reflexivity|].
    assert (Hs : String c s <> "") by discriminate.
    rewrite (starts_slash_no_runs _ Hs Hr), (ends_slash_no_runs _ Hs Hr).
    destruct (1 <? String.length (String c s))%nat; [right | left]; auto.
  - left.
    assert (Hnr : Forall (fun r => is_root r = false) (r :: rs))
      by (rewrite <- Hr; apply maximal_runs_not_root).
    rewrite bool_decide_true by discriminate. rewrite andb_true_r.
    assert (Htrail : (1 <? String.length s)%nat && ends_slash s = ends_slash s).
    { destruct (ends_slash s) eqn:He; [|apply andb_false_r].
      rewrite andb_true_r. apply Nat.ltb_lt, ends_slash_long; [exact He|].
      rewrite Hr. discriminate. }
    rewrite Htrail.
    assert (Hbody : join ((r :: rs) ++ (if ends_slash s then ["/"] else []))
                    = sep_join (r :: rs) ++ (if ends_slash s then "/" else "")).
    { destruct (ends_slash s).
      - rewrite join_before_root by discriminate. rewrite join_runs by exact Hnr.
        reflexivity.
      - rewrite app_nil_r, join_runs by exact Hnr.
        symmetry. apply append_empty_r. }
    destruct (starts_slash s).
    + change (["/"] ++ (r :: rs) ++ (if ends_slash s then ["/"] else []))%list
        with ("/" :: ((r :: rs) ++ (if ends_slash s then ["/"] else [])))%list.
      rewrite join_after_root by discriminate. rewrite Hbody. reflexivity.
    + simpl app. rewrite <- Hbody. reflexivity.
Qed.

Lemma join_segments_equiv s :
  collapse (join ((if starts_slash s then ["/"] else []) ++
                  maximal_runs s ++
                  (if (1 <? String.length s)%nat && ends_slash s then ["/"] else [])))
  = collapse s.
Proof.
  destruct (join_segments_exact s) as [Heq | [Heq Hroot]]; simpl in Heq; rewrite Heq.
  - apply collapse_idempotent.
  - rewrite Hroot. reflexivity.
Qed.

(** ** The runs of a path, declaratively *)

Lemma maximal_runs_run r s :
  r <> "" -> slash_free r = true ->
  s = "" \/ (exists s', s = String "/" s') ->
  maximal_runs (r ++ s) = r :: maximal_runs s.
Proof.
  intros Hr Hfree Hs. induction r as [|c r IH]; [contradiction Hr; reflexivity|].
  simpl in Hfree. apply andb_prop in Hfree as [Hc Hfree].
  apply negb_true_iff in Hc.
  change (String c r ++ s) with (String c (r ++ s)).
  destruct r as [|d r].
  - change ("" ++ s) with s. destruct Hs as [-> | [s' ->]].
    + apply maximal_runs_single, Hc.
    + rewrite (maximal_runs_before_slash c "/" s' Hc eq_refl).
      rewrite (maximal_runs_slash "/" s' eq_refl). reflexivity.
  - change (String d r ++ s) with (String d (r ++ s)) in *.
    assert (Hd : is_slash d = false).
    { simpl in Hfree. apply andb_prop in Hfree as [Hd _].
      apply negb_true_iff, Hd. }
    destruct (maximal_runs_extend c d (r ++ s) Hc Hd) as (r0 & rs0 & H1 & H2).
    rewrite IH in H1 by (discriminate || exact Hfree).
    inversion H1; subst r0 rs0. exact H2.
Qed.

Lemma runs_of_sound s rs : runs_of s rs -> maximal_runs s = rs.
Proof.
  induction 1 as [|s rs _ IH|r s rs Hr Hfree Hs _ IH].
  - reflexivity.
  - rewrite (maximal_runs_slash "/" s eq_refl). exact IH.
  - rewrite (maximal_runs_run r s Hr Hfree Hs), IH. reflexivity.
Qed.

Lemma runs_of_exists s : exists rs, runs_of s rs.
Proof.
  induction s as [|c s [rs IH]]; [exists []; constructor|].
  destruct (is_slash c) eqn:Hc.
  - apply is_slash_eq in Hc as ->. exists rs. constructor. exact IH.
  - assert (Hfree : slash_free (String c "") = true) by (simpl; rewrite Hc; reflexivity).
    inversion IH as [|s' rs' IH' | r s' rs' Hr Hrfree Hs' IH']; subst.
    + exists [String c ""].
      apply (runs_of_run (String c "") "" []);
        [discriminate | exact Hfree | left; reflexivity | constructor].
    + exists (String c "" :: rs).
      apply (runs_of_run (String c "") (String "/" s') rs);
        [discriminate | exact Hfree | right; eexists; reflexivity | exact IH].
    + exists (String c r :: rs').
      apply (runs_of_run (String c r) s' rs');
        [discriminate | simpl; rewrite Hc; exact Hrfree | exact Hs' | exact IH'].
Qed.

(** [maximal_runs] computes the runs, and they are unique. *)
Lemma runs_of_maximal_runs s rs : runs_of s rs <-> rs = maximal_runs s.
Proof.
  split.
  - intros H. symmetry. apply runs_of_sound, H.
  - intros ->. destruct (runs_of_exists s) as [rs H].
    rewrite (runs_of_sound s rs H). exact H.
Qed.

(** ** The first run of a relative path, and what a release keeps *)

Lemma scan_segment_stop path endPos curEnd :
  (scan_segment path endPos curEnd <? endPos)%nat
  && negb (is_slash (char_at path (scan_segment path endPos curEnd))) = false.
Proof.
  remember (endPos - curEnd) as n eqn:Hn.
  revert curEnd Hn. induction n as [n IH] using lt_wf_ind. intros curEnd Hn.
  rewrite scan_segment_step.
  destruct ((curEnd <? endPos)%nat && negb (is_slash (char_at path curEnd))) eqn:Hc;
    [|exact Hc].
  apply andb_prop in Hc as [Hlt _]. apply Nat.ltb_lt in Hlt.
  apply (IH (endPos - S curEnd) ltac:(lia) (S curEnd) eq_refl).
Qed.

Lemma length_substring_prefix s k :
  k <= String.length s -> String.length (substring 0 k s) = k.
Proof.
  revert s. induction k as [|k IH]; intros [|c s] Hk; simpl in *;
    [reflexivity | reflexivity | lia | rewrite IH by lia; reflexivity].
Qed.

Lemma first_run path :
  strlen path <> 0 -> is_slash (char_at path 0) = false ->
  exists k,
    0 < k <= strlen path /\
    head (maximal_runs (text path)) = Some (substring 0 k path) /\
    (k = strlen path \/ char_at path k = "/"%char).
Proof.
  intros Hlen Hs. exists (scan_segment path (strlen path) 0).
  pose proof (strlen_le_length path) as Hend.
  destruct (scan_segment_runs path (strlen path) Hend 0 ltac:(lia) Hs)
    as [Hin Hruns].
  pose proof (scan_segment_gt path (strlen path) 0 ltac:(lia) Hs) as Hgt.
  pose proof (scan_segment_stop path (strlen path) 0) as Hstop.
  simpl in Hin, Hruns. unfold unread at 1 in Hruns.
  rewrite !Nat.sub_0_r in Hruns. fold (text path) in Hruns.
  split; [lia|]. split; [rewrite Hruns; reflexivity|].
  destruct (Nat.ltb_spec (scan_segment path (strlen path) 0) (strlen path))
    as [Hlt|Hge]; [right | left; lia].
  simpl in Hstop. apply negb_false_iff in Hstop. apply is_slash_eq, Hstop.
Qed.

(** A release with a null handle, whatever array pointer it is given, frees
    no vector. *)
Lemma release_null_handle_keeps_vector components st st'' strings elems :
  heap st !! strings = Some (VectorString elems) ->
  PATFreePathComponents components NULL st = Some (tt, st'') ->
  heap st'' !! strings = Some (VectorString elems).
Proof.
  intros Hv. unfold PATFreePathComponents, delete_components, delete_array,
    mbind, M_bind, delete_ptr.
  destruct components as [|a|v i]; [| |discriminate].
  - intros H. inversion H; subst st''. exact Hv.
  - destruct (heap st !! a) as [o|] eqn:Ha; [|discriminate].
    destruct o as [elems'|cells|cell]; simpl; try discriminate.
    intros H. inversion H; subst st''. simpl.
    rewrite lookup_delete_ne by congruence. exact Hv.
Qed.

(** ** The examples of the specification *)

Example split_two_slashes : split "//" st0 = Some (["/"; "/"], 2, NULL).
Proof. vm_compute. reflexivity. Qed.

Example split_absolute_directory :
  split "/a/b/" st0 = Some (["/"; "a"; "b"; "/"], 4, NULL).
Proof. vm_compute. reflexivity. Qed.

(** Splitting the same path again, whatever the state of the caller, yields
    the same segments and the same count. *)
Lemma split_again path st1 st2 :
  (fun r => (r.1.1, r.1.2)) <$> split path st1
  = (fun r => (r.1.1, r.1.2)) <$> split path st2.
Proof. rewrite !split_spec. reflexivity. Qed.

(** * The claims *)

(** C1 (the code departs from it): the function never writes the cell
    [*temp].  Whatever the path, the cell holds after the call what it held
    before; at the path "a", called with the cell set to null, the backing
    vector sits at address 0 while the cell is still null.  The statement
    of the release function that frees the backing strings, [delete array],
    does nothing on that handle, and no release that is given that handle
    and is defined frees the vector. *)
Theorem storage_handle_not_written :
  (forall path st, exists components st',
      PATPathComponents path st = Some (components, st') /\ temp st' = temp st) /\
  (exists st',
      PATPathComponents "a" st0 = Some (Obj 1, st') /\
      heap st' !! 0 = Some (VectorString ["a"]) /\
      temp st' = NULL /\
      temp st' <> Obj 0 /\
      delete_array (temp st') st' = Some (tt, st') /\
      forall components st'',
        release components (temp st') st' = Some (tt, st'') ->
        heap st'' !! 0 = Some (VectorString ["a"])).
Proof.
  split.
  - intros path st. destruct (is_nul (char_at path 0)) eqn:Hnul.
    + eexists _, _. split; [apply (PATPathComponents_empty path st Hnul)|reflexivity].
    + eexists _, _. split; [apply (PATPathComponents_nonempty path st Hnul)|reflexivity].
  - eexists. split; [vm_compute; reflexivity|].
    split; [vm_compute; reflexivity|]. split; [reflexivity|]. split; [discriminate|].
    split; [reflexivity|].
    intros components st'' Hrelease.
    eapply (release_null_handle_keeps_vector components); [|exact Hrelease].
    vm_compute. reflexivity.
Qed.

(** C2: for every input path the returned sequence has as many entries as
    the reported count, and every returned segment is a non-empty string. *)
Theorem split_count_and_nonempty_segments (path : string) (st : state) :
  exists segs n handle,
    split path st = Some (segs, n, handle) /\
    length segs = n /\
    Forall (fun seg => seg <> "") segs.
Proof.
  exists (collected path), (length (collected path)), (temp st).
  split; [apply split_spec|]. split; [reflexivity|].
  apply collected_segments_nonempty.
Qed.

(** C3: for every non-empty path, the first returned segment is the root
    marker exactly when the path starts with '/'; the result is the leading
    marker (if any), then the scanned segments, none of which is a root
    marker, then a trailing part that is one more root marker exactly when
    the path is longer than 1 and ends with '/', and is empty otherwise. *)
Theorem split_root_markers (path : string) (st : state) :
  strlen path <> 0 ->
  exists segs trail,
    split path st = Some (segs, length segs, temp st) /\
    (head segs = Some "/" <-> char_at path 0 = "/"%char) /\
    segs = ((if is_slash (char_at path 0) then ["/"] else [])
            ++ maximal_runs (text path) ++ trail)%list /\
    Forall (fun seg => seg <> "/") (maximal_runs (text path)) /\
    (trail = ["/"] <->
     1 < strlen path /\ char_at path (strlen path - 1) = "/"%char) /\
    (trail = [] <->
     ~ (1 < strlen path /\ char_at path (strlen path - 1) = "/"%char)).
Proof.
  intros Hlen.
  set (trailing := (1 <? strlen path)%nat && is_slash (char_at path (strlen path - 1))).
  assert (Htrailing : trailing = true <->
            1 < strlen path /\ char_at path (strlen path - 1) = "/"%char).
  { unfold trailing, is_slash.
    rewrite andb_true_iff, Nat.ltb_lt, Ascii.eqb_eq. reflexivity. }
  assert (Hnoroot : Forall (fun seg => seg <> "/") (maximal_runs (text path))).
  { eapply Forall_impl; [apply maximal_runs_slash_free|].
    intros seg Hseg ->. discriminate. }
  exists (collected path), (if trailing then ["/"] else []).
  split; [apply split_spec|]. split; [|split; [reflexivity|split; [exact Hnoroot|]]].
  - unfold collected. fold trailing. unfold is_slash at 1.
    destruct (Ascii.eqb_spec (char_at path 0) "/"%char) as [Heq|Hneq].
    + split; [intros _; exact Heq | reflexivity].
    + split; [|intros Heq; contradiction].
      intros Hhd. exfalso.
      destruct path as [|c rest]; [contradiction Hlen; reflexivity|].
      simpl in Hlen. rewrite text_cons in Hhd, Hnoroot.
      destruct (is_nul c); [contradiction Hlen; reflexivity|].
      assert (Hc : is_slash c = false) by (apply Ascii.eqb_neq; exact Hneq).
      pose proof (maximal_runs_head c (text rest) Hc) as Hruns.
      destruct (maximal_runs (String c (text rest))) as [|r rs];
        [contradiction Hruns; reflexivity|].
      simpl in Hhd. inversion Hhd; subst r. inversion Hnoroot; subst. congruence.
  - rewrite <- Htrailing. destruct trailing; split; split; congruence.
Qed.

Lemma split_root_markers_witness :
  strlen "/usr/lib/" <> 0 /\
  exists segs trail,
    split "/usr/lib/" st0 = Some (segs, length segs, temp st0) /\
    (head segs = Some "/" <-> char_at "/usr/lib/" 0 = "/"%char) /\
    segs = ((if is_slash (char_at "/usr/lib/" 0) then ["/"] else [])
            ++ maximal_runs (text "/usr/lib/") ++ trail)%list /\
    Forall (fun seg => seg <> "/") (maximal_runs (text "/usr/lib/")) /\
    (trail = ["/"] <->
     1 < strlen "/usr/lib/" /\
     char_at "/usr/lib/" (strlen "/usr/lib/" - 1) = "/"%char) /\
    (trail = [] <->
     ~ (1 < strlen "/usr/lib/" /\
        char_at "/usr/lib/" (strlen "/usr/lib/" - 1) = "/"%char)).
Proof.
  split; [simpl; lia | apply (split_root_markers "/usr/lib/" st0); simpl; lia].
Defined.

(** C4: on the empty path the function returns a null sequence and a count
    of 0, and leaves the free store as it found it: nothing was allocated,
    so nothing is to be released. *)
Theorem split_empty_path (path : string) (st : state) :
  strlen path = 0 ->
  exists st',
    PATPathComponents path st = Some (NULL, st') /\
    count st' = 0 /\
    heap st' = heap st /\
    split path st = Some ([], 0, temp st).
Proof.
  intros Hlen. apply strlen_zero in Hlen.
  exists (set_count 0 st). split; [apply PATPathComponents_empty, Hlen|].
  split; [reflexivity|]. split; [reflexivity|].
  rewrite split_spec, (collected_empty path Hlen). reflexivity.
Qed.

Lemma split_empty_path_witness :
  strlen "" = 0 /\
  exists st',
    PATPathComponents "" st0 = Some (NULL, st') /\
    count st' = 0 /\
    heap st' = heap st0 /\
    split "" st0 = Some ([], 0, temp st0).
Proof.
  split; [reflexivity | apply (split_empty_path "" st0); reflexivity].
Defined.

(** C5: split("/") returns exactly one segment, the root marker. *)
Theorem split_root (st : state) :
  split "/" st = Some (["/"], 1, temp st).
Proof. rewrite split_spec. reflexivity. Qed.

(** C6: for every path that neither starts nor ends with '/', the result
    is exactly the maximal runs of characters other than '/', in order of
    appearance, as [maximal_runs] computes them and as [runs_of] defines
    them; none of them is a root marker and none is empty. *)
Theorem split_relative_path (path : string) (st : state) :
  is_slash (char_at path 0) = false ->
  is_slash (char_at path (strlen path - 1)) = false ->
  exists segs,
    split path st = Some (segs, length segs, temp st) /\
    segs = maximal_runs (text path) /\
    runs_of (text path) segs /\
    Forall (fun seg => seg <> "/" /\ seg <> "") segs.
Proof.
  intros Hfirst Hlast. exists (collected path).
  split; [apply split_spec|].
  assert (Hsegs : collected path = maximal_runs (text path)).
  { unfold collected. rewrite Hfirst, Hlast, andb_false_r. simpl.
    apply app_nil_r. }
  split; [exact Hsegs|]. rewrite Hsegs.
  split; [apply runs_of_maximal_runs; reflexivity|].
  apply Forall_forall. intros seg Hseg. split.
  - intros ->.
    pose proof (proj1 (Forall_forall _ _) (maximal_runs_slash_free (text path)) _ Hseg).
    discriminate.
  - exact (proj1 (Forall_forall _ _) (maximal_runs_nonempty (text path)) _ Hseg).
Qed.

Lemma split_relative_path_witness :
  (is_slash (char_at "a/b/c" 0) = false /\
   is_slash (char_at "a/b/c" (strlen "a/b/c" - 1)) = false /\
   split "a/b/c" st0 = Some (["a"; "b"; "c"], 3, NULL)) /\
  (is_slash (char_at "a//b" 0) = false /\
   is_slash (char_at "a//b" (strlen "a//b" - 1)) = false /\
   split "a//b" st0 = Some (["a"; "b"], 2, NULL)).
Proof.
  split; (split; [reflexivity|split; [reflexivity|]]).
  - destruct (split_relative_path "a/b/c" st0) as (segs & Hsplit & Hsegs & _);
      [reflexivity | reflexivity |].
    rewrite Hsplit, Hsegs. reflexivity.
  - destruct (split_relative_path "a//b" st0) as (segs & Hsplit & Hsegs & _);
      [reflexivity | reflexivity |].
    rewrite Hsplit, Hsegs. reflexivity.
Defined.

(** C7: for every path, joining the returned segments, with a single '/'
    between adjacent segments that are not root markers and nothing next
    to a root marker, gives a path equivalent to the input with repeated
    separators collapsed: the two are equal up to repeated separators.  They
    are equal outright, unless the path is made of two or more '/' only,
    where the two root markers join into the path of two separators. *)
Theorem split_join_round_trip (path : string) (st : state) :
  exists segs n handle,
    split path st = Some (segs, n, handle) /\
    path_equiv (join segs) (collapse (text path)) /\
    (join segs = collapse (text path) \/
     (join segs = "//" /\ collapse (text path) = "/")).
Proof.
  exists (collected path), (length (collected path)), (temp st).
  split; [apply split_spec|].
  unfold path_equiv, collected.
  rewrite starts_slash_text, ends_slash_text, collapse_idempotent.
  split; [apply join_segments_equiv | apply join_segments_exact].
Qed.

(** C8: on every input the function terminates with a result, never with an
    undefined operation, and the result can be read back as a sequence of
    strings. *)
Theorem split_total (path : string) (st : state) :
  (exists components st', PATPathComponents path st = Some (components, st')) /\
  (exists result, split path st = Some result).
Proof.
  split.
  - destruct (is_nul (char_at path 0)) eqn:Hnul.
    + eexists _, _. apply (PATPathComponents_empty path st Hnul).
    + eexists _, _. apply (PATPathComponents_nonempty path st Hnul).
  - eexists. apply split_spec.
Qed.

(** C9: for every non-empty path the count is at least 1: either the path
    starts with '/' and the root marker comes first, or it does not and
    the scan collects at least one segment, which comes first: a non-empty
    string without '/', made of the characters of the path from its start
    up to the first '/' or to the end. *)
Theorem split_nonempty_path_count (path : string) (st : state) :
  strlen path <> 0 ->
  exists segs n handle,
    split path st = Some (segs, n, handle) /\
    n = length segs /\
    1 <= n /\
    ((is_slash (char_at path 0) = true /\ head segs = Some "/") \/
     (is_slash (char_at path 0) = false /\
      exists seg,
        head segs = Some seg /\
        seg <> "" /\
        slash_free seg = true /\
        head (maximal_runs (text path)) = Some seg /\
        seg = substring 0 (String.length seg) path /\
        (String.length seg = strlen path \/
         char_at path (String.length seg) = "/"%char))).
Proof.
  intros Hlen.
  exists (collected path), (length (collected path)), (temp st).
  split; [apply split_spec|]. split; [reflexivity|].
  unfold collected. destruct (is_slash (char_at path 0)) eqn:Hs.
  - split; [simpl; lia|]. left. auto.
  - destruct (first_run path Hlen Hs) as (k & Hk & Hfirst & Hstop).
    pose proof (maximal_runs_nonempty (text path)) as Hne.
    pose proof (maximal_runs_slash_free (text path)) as Hfree.
    destruct (maximal_runs (text path)) as [|r rs]; [discriminate|].
    simpl in Hfirst. inversion Hfirst as [Hr]. subst r.
    split; [simpl; lia|]. right. split; [reflexivity|].
    assert (Hlenr : String.length (substring 0 k path) = k).
    { apply length_substring_prefix. pose proof (strlen_le_length path). lia. }
    exists (substring 0 k path). rewrite Hlenr.
    split; [reflexivity|].
    split; [exact (Forall_inv Hne)|].
    split; [exact (Forall_inv Hfree)|].
    split; [reflexivity|]. split; [reflexivity | exact Hstop].
Qed.

Lemma split_nonempty_path_count_witness :
  strlen "usr/lib" <> 0 /\
  exists segs n handle,
    split "usr/lib" st0 = Some (segs, n, handle) /\
    n = length segs /\
    1 <= n /\
    ((is_slash (char_at "usr/lib" 0) = true /\ head segs = Some "/") \/
     (is_slash (char_at "usr/lib" 0) = false /\
      exists seg,
        head segs = Some seg /\
        seg <> "" /\
        slash_free seg = true /\
        head (maximal_runs (text "usr/lib")) = Some seg /\
        seg = substring 0 (String.length seg) "usr/lib" /\
        (String.length seg = strlen "usr/lib" \/
         char_at "usr/lib" (String.length seg) = "/"%char))).
Proof.
  split; [simpl; lia | apply (split_nonempty_path_count "usr/lib" st0); simpl; lia].
Defined.

(** C10: a path made of three or more '/' and nothing else yields exactly
    two segments, both the root marker, whatever its length. *)
Theorem split_only_slashes (n : nat) (st : state) :
  3 <= n ->
  split (slashes n) st = Some (["/"; "/"], 2, temp st).
Proof.
  intros Hn. rewrite split_spec, collected_slashes by lia. reflexivity.
Qed.

Lemma split_only_slashes_witness :
  3 <= 4 /\ split "////" st0 = Some (["/"; "/"], 2, NULL).
Proof.
  split; [lia | apply (split_only_slashes 4 st0); lia].
Defined.

(** * Further properties *)

(** ** The free store after the call *)

(** Where a non-empty path leaves its two objects: the vector and the array
    at two different addresses the caller did not use. *)
Lemma PATPathComponents_layout path st :
  strlen path <> 0 ->
  exists strings array,
    heap st !! strings = None /\
    heap st !! array = None /\
    strings <> array /\
    PATPathComponents path st
    = Some (Obj array,
            mkState
              (<[array := CharPtrArray
                   ((fun i => Some (CStr strings i))
                      <$> seq 0 (length (collected path)))]>
                 (<[strings := VectorString (collected path)]> (heap st)))
              (length (collected path)) (temp st)).
Proof.
  intros Hlen.
  assert (Hnul : is_nul (char_at path 0) = false).
  { destruct (is_nul (char_at path 0)) eqn:H; [|reflexivity].
    contradiction Hlen. apply strlen_zero, H. }
  set (strings := fresh (dom (heap st))).
  set (h1 := <[strings := VectorString (collected path)]> (heap st)).
  set (array := fresh (dom h1)).
  assert (Hs : strings ∉ dom (heap st)) by apply is_fresh.
  assert (Ha : array ∉ dom h1) by apply is_fresh.
  unfold h1 in Ha. rewrite dom_insert_L in Ha.
  exists strings, array. split; [apply not_elem_of_dom, Hs|].
  split; [apply not_elem_of_dom; set_solver|].
  split; [set_solver|].
  apply (PATPathComponents_nonempty path st Hnul).
Qed.

(** X1: the call never touches an object that is already on the free
    store, and frees none: every object of the caller is still there,
    unchanged.  A non-empty path adds exactly two objects, at addresses
    that were not in use; the empty path adds none. *)
Theorem PATPathComponents_keeps_caller_objects (path : string) (st : state) :
  exists components st',
    PATPathComponents path st = Some (components, st') /\
    heap st ⊆ heap st' /\
    (strlen path = 0 -> dom (heap st') = dom (heap st)) /\
    (strlen path <> 0 ->
     exists strings array,
       components = Obj array /\
       strings <> array /\
       (strings ∉ dom (heap st)) /\
       (array ∉ dom (heap st)) /\
       dom (heap st') = {[strings; array]} ∪ dom (heap st)).
Proof.
  destruct (decide (strlen path = 0)) as [Hlen|Hlen].
  - exists NULL, (set_count 0 st).
    split; [apply PATPathComponents_empty, strlen_zero, Hlen|].
    split; [reflexivity|]. split; [reflexivity | congruence].
  - destruct (PATPathComponents_layout path st Hlen)
      as (strings & array & Hs & Ha & Hneq & Hrun).
    eexists _, _. split; [exact Hrun|]. simpl. split; [|split; [congruence|]].
    + apply insert_subseteq_r; [exact Ha|]. apply insert_subseteq, Hs.
    + intros _. exists strings, array.
      split; [reflexivity|]. split; [exact Hneq|].
      split; [apply not_elem_of_dom, Hs|]. split; [apply not_elem_of_dom, Ha|].
      rewrite !dom_insert_L. apply set_eq. intros x.
      rewrite !elem_of_union, !elem_of_singleton. tauto.
Qed.

(** X2: for a non-empty path, all the returned pointers go into one
    vector: the vector holds the segments in order, and cell [i] of the
    returned array is the [c_str()] of its element [i]; no cell is left
    unwritten. *)
Theorem PATPathComponents_pointers (path : string) (st : state) :
  strlen path <> 0 ->
  exists array strings st' segs,
    PATPathComponents path st = Some (Obj array, st') /\
    split path st = Some (segs, length segs, temp st) /\
    heap st' !! strings = Some (VectorString segs) /\
    heap st' !! array
    = Some (CharPtrArray ((fun i => Some (CStr strings i)) <$> seq 0 (length segs))).
Proof.
  intros Hlen.
  destruct (PATPathComponents_layout path st Hlen)
    as (strings & array & Hs & Ha & Hneq & Hrun).
  eexists array, strings, _, (collected path).
  split; [exact Hrun|]. split; [apply split_spec|]. simpl.
  split; [|apply lookup_insert_eq].
  rewrite lookup_insert_ne by congruence. apply lookup_insert_eq.
Qed.

Lemma PATPathComponents_pointers_witness :
  strlen "/etc/hosts" <> 0 /\
  exists array strings st' segs,
    PATPathComponents "/etc/hosts" st0 = Some (Obj array, st') /\
    split "/etc/hosts" st0 = Some (segs, length segs, temp st0) /\
    heap st' !! strings = Some (VectorString segs) /\
    heap st' !! array
    = Some (CharPtrArray ((fun i => Some (CStr strings i)) <$> seq 0 (length segs))).
Proof.
  split; [simpl; lia | apply (PATPathComponents_pointers "/etc/hosts" st0); simpl; lia].
Defined.

Lemma collected_not_nil path : strlen path <> 0 -> collected path <> [].
Proof.
  intros Hlen. unfold collected.
  destruct (is_slash (char_at path 0)) eqn:Hs; [discriminate|].
  destruct (first_run path Hlen Hs) as (k & _ & Hfirst & _).
  destruct (maximal_runs (text path)); discriminate.
Qed.

(** X3: the release function cannot release what the splitter returns.
    The array of a non-empty path is made by [new[]] and the release
    function gives it to a plain [delete]: whatever handle comes with it,
    the release of that array is undefined. *)
Theorem PATFreePathComponents_array_undefined (path : string) (st : state) :
  strlen path <> 0 ->
  exists array st',
    PATPathComponents path st = Some (Obj array, st') /\
    (exists cells, heap st' !! array = Some (CharPtrArray cells)) /\
    forall handle, PATFreePathComponents (Obj array) handle st' = None.
Proof.
  intros Hlen.
  destruct (PATPathComponents_layout path st Hlen)
    as (strings & array & Hs & Ha & Hneq & Hrun).
  eexists array, _. split; [exact Hrun|].
  split; [eexists; simpl; apply lookup_insert_eq|].
  intros handle.
  unfold PATFreePathComponents, delete_components, mbind, M_bind, delete_ptr.
  simpl. rewrite lookup_insert_eq. reflexivity.
Qed.

Lemma PATFreePathComponents_array_undefined_witness :
  strlen "/etc/hosts" <> 0 /\
  exists array st',
    PATPathComponents "/etc/hosts" st0 = Some (Obj array, st') /\
    (exists cells, heap st' !! array = Some (CharPtrArray cells)) /\
    forall handle, PATFreePathComponents (Obj array) handle st' = None.
Proof.
  split; [simpl; lia
         | apply (PATFreePathComponents_array_undefined "/etc/hosts" st0);
           simpl; lia].
Defined.

(** X4: the returned strings live in the backing vector and die with it.
    For a non-empty path, [delete array] given the address of the vector
    frees the vector and nothing else; from then on the returned array can
    no longer be read as a sequence of strings, and a second [delete array]
    of that address is undefined. *)
Theorem delete_array_frees_the_strings (path : string) (st : state) :
  strlen path <> 0 ->
  exists array strings st' st'',
    PATPathComponents path st = Some (Obj array, st') /\
    (exists segs, segments st' (Obj array) = Some segs /\
                  heap st' !! strings = Some (VectorString segs)) /\
    delete_array (Obj strings) st' = Some (tt, st'') /\
    heap st'' = delete strings (heap st') /\
    segments st'' (Obj array) = None /\
    delete_array (Obj strings) st'' = None.
Proof.
  intros Hlen.
  destruct (PATPathComponents_layout path st Hlen)
    as (strings & array & Hs & Ha & Hneq & Hrun).
  pose proof (collected_not_nil path Hlen) as Hsegs.
  assert (Hv : (<[array := CharPtrArray
                   ((fun i => Some (CStr strings i))
                      <$> seq 0 (length (collected path)))]>
                  (<[strings := VectorString (collected path)]> (heap st)))
               !! strings = Some (VectorString (collected path))).
  { rewrite lookup_insert_ne by congruence. apply lookup_insert_eq. }
  eexists array, strings, _, _. split; [exact Hrun|].
  split.
  { exists (collected path). split; [|exact Hv].
    simpl. rewrite lookup_insert_eq. apply segments_c_str. exact Hv. }
  split; [unfold delete_array, delete_ptr; simpl; rewrite Hv; reflexivity|].
  split; [reflexivity|]. split.
  - simpl. rewrite lookup_delete_ne by congruence. rewrite lookup_insert_eq.
    destruct (collected path) as [|seg segs]; [contradiction Hsegs; reflexivity|].
    simpl. rewrite lookup_delete_eq. reflexivity.
  - unfold delete_array, delete_ptr. simpl. rewrite lookup_delete_eq. reflexivity.
Qed.

Lemma delete_array_frees_the_strings_witness :
  strlen "/etc/hosts" <> 0 /\
  exists array strings st' st'',
    PATPathComponents "/etc/hosts" st0 = Some (Obj array, st') /\
    (exists segs, segments st' (Obj array) = Some segs /\
                  heap st' !! strings = Some (VectorString segs)) /\
    delete_array (Obj strings) st' = Some (tt, st'') /\
    heap st'' = delete strings (heap st') /\
    segments st'' (Obj array) = None /\
    delete_array (Obj strings) st'' = None.
Proof.
  split; [simpl; lia
         | apply (delete_array_frees_the_strings "/etc/hosts" st0); simpl; lia].
Defined.

(** X5: a caller that sets the handle cell to null before the call cannot
    free the backing vector through the release function.  For a non-empty
    path, [delete array] on the content of the cell does nothing, and every
    release that is given that content as its handle and is defined,
    whatever array pointer it is given, leaves the vector of segments on
    the free store. *)
Theorem release_with_unwritten_handle_leaks (path : string) (st : state) :
  strlen path <> 0 ->
  temp st = NULL ->
  exists array strings st' segs,
    PATPathComponents path st = Some (Obj array, st') /\
    split path st = Some (segs, length segs, NULL) /\
    heap st !! strings = None /\
    heap st' !! strings = Some (VectorString segs) /\
    delete_array (temp st') st' = Some (tt, st') /\
    PATFreePathComponents NULL (temp st') st' = Some (tt, st') /\
    forall components st'',
      PATFreePathComponents components (temp st') st' = Some (tt, st'') ->
      heap st'' !! strings = Some (VectorString segs).
Proof.
  intros Hlen Htemp.
  destruct (PATPathComponents_layout path st Hlen)
    as (strings & array & Hs & Ha & Hneq & Hrun).
  eexists array, strings, _, (collected path). split; [exact Hrun|].
  split; [rewrite split_spec, Htemp; reflexivity|].
  split; [exact Hs|]. simpl. rewrite Htemp.
  assert (Hv : (<[array := CharPtrArray
                   ((fun i => Some (CStr strings i))
                      <$> seq 0 (length (collected path)))]>
                  (<[strings := VectorString (collected path)]> (heap st)))
               !! strings = Some (VectorString (collected path))).
  { rewrite lookup_insert_ne by congruence. apply lookup_insert_eq. }
  split; [exact Hv|]. split; [reflexivity|]. split; [reflexivity|].
  intros components st'' Hrelease.
  eapply (release_null_handle_keeps_vector components); [|exact Hrelease].
  exact Hv.
Qed.

Lemma release_with_unwritten_handle_leaks_witness :
  strlen "/etc/hosts" <> 0 /\
  temp st0 = NULL /\
  exists array strings st' segs,
    PATPathComponents "/etc/hosts" st0 = Some (Obj array, st') /\
    split "/etc/hosts" st0 = Some (segs, length segs, NULL) /\
    heap st0 !! strings = None /\
    heap st' !! strings = Some (VectorString segs) /\
    delete_array (temp st') st' = Some (tt, st') /\
    PATFreePathComponents NULL (temp st') st' = Some (tt, st') /\
    forall components st'',
      PATFreePathComponents components (temp st') st' = Some (tt, st'') ->
      heap st'' !! strings = Some (VectorString segs).
Proof.
  split; [simpl; lia|]. split; [reflexivity|].
  apply (release_with_unwritten_handle_leaks "/etc/hosts" st0);
    [simpl; lia | reflexivity].
Defined.

(** ** The text of a path *)

Lemma collected_text path : collected path = text_segments (text path).
Proof.
  unfold collected, text_segments.
  rewrite starts_slash_text, ends_slash_text. reflexivity.
Qed.

Lemma nul_free_text path : nul_free (text path) = true.
Proof.
  induction path as [|c rest IH]; [reflexivity|].
  rewrite text_cons. destruct (is_nul c) eqn:Hc; [reflexivity|].
  simpl. rewrite Hc. exact IH.
Qed.

Lemma text_nul_free s : nul_free s = true -> text s = s.
Proof.
  induction s as [|c s IH]; [reflexivity|]. simpl. intros H.
  apply andb_prop in H as [Hc Hs]. apply negb_true_iff in Hc.
  rewrite text_cons, Hc, IH by exact Hs. reflexivity.
Qed.

Lemma collected_nul_free s : nul_free s = true -> collected s = text_segments s.
Proof. intros H. rewrite collected_text, text_nul_free by exact H. reflexivity. Qed.

Lemma is_slash_not_nul c : is_slash c = true -> is_nul c = false.
Proof. intros H. apply is_slash_eq in H. subst c. reflexivity. Qed.

Lemma nul_free_fields s :
  nul_free s = true -> Forall (fun f => nul_free f = true) (fields s).
Proof.
  induction s as [|c s IH]; simpl; [repeat constructor|].
  intros H. apply andb_prop in H as [Hc Hs]. specialize (IH Hs).
  destruct (is_slash c).
  - constructor; [reflexivity | exact IH].
  - destruct (fields s) as [|f fs]; inversion IH; subst; constructor; simpl;
      rewrite ?Hc; auto.
Qed.

Lemma nul_free_maximal_runs s :
  nul_free s = true -> Forall (fun f => nul_free f = true) (maximal_runs s).
Proof.
  intros H. unfold maximal_runs. apply Forall_forall. intros f Hf.
  apply list_elem_of_filter in Hf as [_ Hf].
  exact (proj1 (Forall_forall _ _) (nul_free_fields s H) f Hf).
Qed.

(** X6: every returned segment is either the root marker or a string
    without '/', and none contains a NUL: each one reads back whole as a
    C string. *)
Theorem split_segments_shape (path : string) (st : state) :
  exists segs n handle,
    split path st = Some (segs, n, handle) /\
    Forall (fun seg => (seg = "/" \/ slash_free seg = true) /\
                       nul_free seg = true) segs.
Proof.
  exists (collected path), (length (collected path)), (temp st).
  split; [apply split_spec|].
  rewrite collected_text. unfold text_segments.
  rewrite !Forall_app. split; [|split].
  - destruct (starts_slash _); repeat constructor; auto.
  - apply Forall_and. split.
    + eapply Forall_impl; [apply maximal_runs_slash_free|]. auto.
    + apply nul_free_maximal_runs, nul_free_text.
  - destruct (_ && _); repeat constructor; auto.
Qed.

(** X7: the bytes that follow the first NUL are never looked at: the result
    for [path] is the result for the C string it holds. *)
Theorem split_reads_the_c_string (path : string) (st : state) :
  split path st = split (text path) st.
Proof.
  rewrite !split_spec, !collected_text.
  rewrite (text_nul_free (text path)) by apply nul_free_text. reflexivity.
Qed.

(** ** Sizes *)

Lemma total_length_run c s :
  is_slash c = false ->
  sum_list_with String.length (maximal_runs (String c s))
  = S (sum_list_with String.length (maximal_runs s)).
Proof.
  intros Hc. destruct s as [|d s].
  - rewrite maximal_runs_single by exact Hc. reflexivity.
  - destruct (is_slash d) eqn:Hd.
    + rewrite (maximal_runs_before_slash c d s Hc Hd), (maximal_runs_slash d s Hd).
      reflexivity.
    + destruct (maximal_runs_extend c d s Hc Hd) as (r & rs & H1 & H2).
      rewrite H1, H2. reflexivity.
Qed.

Lemma total_length_runs s :
  sum_list_with String.length (maximal_runs s) + separators s = String.length s.
Proof.
  induction s as [|c s IH]; [reflexivity|].
  simpl separators. simpl String.length. destruct (is_slash c) eqn:Hc.
  - rewrite (maximal_runs_slash c s Hc). lia.
  - rewrite (total_length_run c s Hc). lia.
Qed.

Lemma ends_slash_separators s : ends_slash s = true -> 1 <= separators s.
Proof.
  induction s as [|c s IH]; [discriminate|].
  destruct s as [|d s].
  - simpl. intros ->. lia.
  - change (ends_slash (String c (String d s))) with (ends_slash (String d s)).
    intros H. specialize (IH H). simpl in *. lia.
Qed.

Lemma markers_separators s :
  (if starts_slash s then 1 else 0)
  + (if (1 <? String.length s)%nat && ends_slash s then 1 else 0)
  <= separators s.
Proof.
  destruct s as [|c [|d s]].
  - reflexivity.
  - simpl. destruct (is_slash c); simpl; lia.
  - change (ends_slash (String c (String d s))) with (ends_slash (String d s)).
    change (1 <? String.length (String c (String d s)))%nat with true.
    change (separators (String c (String d s)))
      with ((if is_slash c then 1 else 0) + separators (String d s)).
    simpl starts_slash. rewrite andb_true_l.
    destruct (ends_slash (String d s)) eqn:He.
    + apply ends_slash_separators in He. destruct (is_slash c); cbv iota; lia.
    + destruct (is_slash c); cbv iota; lia.
Qed.

Lemma length_le_total (segs : list string) :
  Forall (fun seg => seg <> "") segs ->
  length segs <= sum_list_with String.length segs.
Proof.
  induction 1 as [|seg segs Hseg _ IH]; [reflexivity|].
  simpl. destruct seg; [contradiction Hseg; reflexivity | simpl; lia].
Qed.

(** X8: the segments never take more room than the path: their lengths add
    up to at most [strlen path], and so does their number. *)
Theorem split_size_bound (path : string) (st : state) :
  exists segs n handle,
    split path st = Some (segs, n, handle) /\
    n <= sum_list_with String.length segs /\
    sum_list_with String.length segs <= strlen path.
Proof.
  exists (collected path), (length (collected path)), (temp st).
  split; [apply split_spec|].
  split; [apply length_le_total, collected_segments_nonempty|].
  rewrite collected_text, <- length_text. unfold text_segments.
  rewrite !sum_list_with_app.
  pose proof (total_length_runs (text path)) as Hruns.
  pose proof (markers_separators (text path)) as Hmarks.
  destruct (starts_slash (text path));
    destruct ((1 <? String.length (text path))%nat && ends_slash (text path));
    simpl in *; lia.
Qed.

(** ** Repeated separators *)

Lemma maximal_runs_after c s :
  is_slash c = false ->
  maximal_runs (String c s)
  = if bool_decide (s = "") || starts_slash s
    then String c "" :: maximal_runs s
    else match maximal_runs s with
         | r :: rs => String c r :: rs
         | [] => [String c ""]
         end.
Proof.
  intros Hc. destruct s as [|d s].
  - apply maximal_runs_single, Hc.
  - rewrite bool_decide_false by discriminate. simpl starts_slash. simpl orb.
    destruct (is_slash d) eqn:Hd.
    + rewrite (maximal_runs_before_slash c d s Hc Hd), (maximal_runs_slash d s Hd).
      reflexivity.
    + destruct (maximal_runs_extend c d s Hc Hd) as (r & rs & H1 & H2).
      rewrite H1, H2. reflexivity.
Qed.

Lemma collapse_empty s : bool_decide (collapse s = "") = bool_decide (s = "").
Proof.
  destruct s as [|c s]; [reflexivity|].
  rewrite !bool_decide_false; [reflexivity | discriminate |].
  apply (proj2 (collapse_head (String c s))). discriminate.
Qed.

Lemma maximal_runs_collapse s : maximal_runs (collapse s) = maximal_runs s.
Proof.
  induction s as [|a s IH]; [reflexivity|].
  destruct s as [|b s]; [reflexivity|].
  rewrite collapse_cons. destruct (is_slash a) eqn:Ha.
  - rewrite (maximal_runs_slash a (String b s) Ha).
    destruct (is_slash b); simpl andb; cbv iota; [exact IH|].
    rewrite (maximal_runs_slash a _ Ha). exact IH.
  - simpl andb. cbv iota.
    rewrite (maximal_runs_after a (collapse (String b s)) Ha).
    rewrite (maximal_runs_after a (String b s) Ha).
    rewrite collapse_empty, (proj1 (collapse_head (String b s))), IH. reflexivity.
Qed.

Lemma ends_slash_collapse s : ends_slash (collapse s) = ends_slash s.
Proof.
  induction s as [|a s IH]; [reflexivity|].
  destruct s as [|b s]; [reflexivity|].
  change (ends_slash (String a (String b s))) with (ends_slash (String b s)).
  rewrite collapse_cons. destruct (is_slash a && is_slash b); [exact IH|].
  destruct (collapse (String b s)) as [|b' r] eqn:Hr.
  - exfalso. apply (proj2 (collapse_head (String b s))); [discriminate | exact Hr].
  - exact IH.
Qed.

Lemma nul_free_collapse s : nul_free s = true -> nul_free (collapse s) = true.
Proof.
  induction s as [|a s IH]; [reflexivity|].
  destruct s as [|b s]; [auto|].
  intros H. rewrite collapse_cons.
  change (nul_free (String a (String b s)))
    with (negb (is_nul a) && nul_free (String b s)) in H.
  apply andb_prop in H as [Ha Hs].
  destruct (is_slash a && is_slash b); [exact (IH Hs)|].
  change (negb (is_nul a) && nul_free (collapse (String b s)) = true).
  rewrite Ha, (IH Hs). reflexivity.
Qed.

Lemma text_segments_collapse s :
  maximal_runs s <> [] -> text_segments (collapse s) = text_segments s.
Proof.
  intros Hr. unfold text_segments.
  rewrite (proj1 (collapse_head s)), maximal_runs_collapse, ends_slash_collapse.
  assert (Htrail : (1 <? String.length (collapse s))%nat && ends_slash s
                   = (1 <? String.length s)%nat && ends_slash s);
    [|rewrite Htrail; reflexivity].
  destruct (ends_slash s) eqn:He; [|rewrite !andb_false_r; reflexivity].
  rewrite !andb_true_r.
  rewrite (proj2 (Nat.ltb_lt _ _) (ends_slash_long s He Hr)).
  apply Nat.ltb_lt, ends_slash_long.
  - rewrite ends_slash_collapse. exact He.
  - rewrite maximal_runs_collapse. exact Hr.
Qed.

Lemma no_runs_slashes s : maximal_runs s = [] -> s = slashes (String.length s).
Proof.
  induction s as [|c s IH]; [reflexivity|]. intros Hr.
  destruct (is_slash c) eqn:Hc.
  - rewrite (maximal_runs_slash c s Hc) in Hr. apply is_slash_eq in Hc as ->.
    simpl. f_equal. apply IH, Hr.
  - contradiction (maximal_runs_head c s Hc).
Qed.

(** X9: repeated separators do not count: a path that has at least one
    character other than '/' gives the same result as the path with every
    run of '/' collapsed into one.  (A path of two or more '/' only is the
    exception: it yields two root markers, its collapsed form one.) *)
Theorem split_collapse (path : string) (st : state) :
  text path <> slashes (strlen path) ->
  split (collapse (text path)) st = split path st.
Proof.
  intros Hnot. rewrite !split_spec.
  rewrite (collected_nul_free (collapse (text path)))
    by apply nul_free_collapse, nul_free_text.
  rewrite (collected_text path), text_segments_collapse; [reflexivity|].
  intros Hr. apply Hnot. rewrite <- length_text. apply no_runs_slashes, Hr.
Qed.

Lemma split_collapse_witness :
  text "usr//lib///" <> slashes (strlen "usr//lib///") /\
  split (collapse (text "usr//lib///")) st0 = split "usr//lib///" st0.
Proof.
  split; [vm_compute; discriminate
         | apply (split_collapse "usr//lib///" st0); vm_compute; discriminate].
Defined.

(** X10: the segments are a fixed point of joining and splitting: joined
    with [join] and split again, from any state, they come back the same. *)
Theorem split_join_split (path : string) (st st2 : state) :
  exists segs n handle,
    split path st = Some (segs, n, handle) /\
    split (join segs) st2 = Some (segs, n, temp st2).
Proof.
  exists (collected path), (length (collected path)), (temp st).
  split; [apply split_spec|]. rewrite split_spec.
  assert (Hfix : collected (join (collected path)) = collected path);
    [|rewrite Hfix; reflexivity].
  rewrite (collected_text path).
  pose proof (nul_free_text path) as Hnul. set (t := text path) in *.
  destruct (maximal_runs t) as [|r rs] eqn:Hr.
  - rewrite (no_runs_slashes t Hr).
    destruct (String.length t) as [|[|n]]; [reflexivity | reflexivity|].
    destruct (text_slashes (S (S n))) as [_ Htext].
    rewrite <- Htext at 1 2. rewrite <- collected_text.
    rewrite collected_slashes by lia. reflexivity.
  - assert (Hne : maximal_runs t <> []) by (rewrite Hr; discriminate).
    assert (Hjoin : join (text_segments t) = collapse t).
    { destruct (join_segments_exact t) as [Heq | [_ Hroot]]; [exact Heq|].
      exfalso. apply Hne. rewrite <- maximal_runs_collapse, Hroot. reflexivity. }
    rewrite Hjoin, collected_nul_free by apply nul_free_collapse, Hnul.
    apply text_segments_collapse, Hne.
Qed.

(** X11: two paths that give the same segments are equivalent: they
    differ by repeated separators only. *)
Theorem same_segments_equivalent (p q : string) (st1 st2 : state)
    (segs : list string) (n1 n2 : nat) (h1 h2 : ptr) :
  split p st1 = Some (segs, n1, h1) ->
  split q st2 = Some (segs, n2, h2) ->
  path_equiv (text p) (text q).
Proof.
  rewrite !split_spec. intros Hp Hq.
  inversion Hp as [[Hp1 Hp2 Hp3]]. inversion Hq as [[Hq1 Hq2 Hq3]].
  unfold path_equiv.
  rewrite <- (join_segments_equiv (text p)), <- (join_segments_equiv (text q)).
  fold (text_segments (text p)). fold (text_segments (text q)).
  rewrite <- !collected_text, Hp1, Hq1. reflexivity.
Qed.

Lemma same_segments_equivalent_witness :
  split "a//b" st0 = Some (["a"; "b"], 2, NULL) /\
  split "a/b" st0 = Some (["a"; "b"], 2, NULL) /\
  path_equiv (text "a//b") (text "a/b").
Proof.
  split; [vm_compute; reflexivity|]. split; [vm_compute; reflexivity|].
  apply (same_segments_equivalent "a//b" "a/b" st0 st0 ["a"; "b"] 2 2 NULL NULL);
    vm_compute; reflexivity.
Defined.

(** ** Appending a path to a path *)

Lemma fields_append a b :
  fields (a ++ String "/" b) = (fields a ++ fields b)%list.
Proof.
  induction a as [|c a IH]; [reflexivity|].
  change (String c a ++ String "/" b) with (String c (a ++ String "/" b)).
  simpl. rewrite IH. destruct (is_slash c); [reflexivity|].
  pose proof (fields_not_nil a) as Hne.
  destruct (fields a) as [|f fs]; [contradiction Hne; reflexivity | reflexivity].
Qed.

Lemma maximal_runs_append a b :
  maximal_runs (a ++ String "/" b) = (maximal_runs a ++ maximal_runs b)%list.
Proof. unfold maximal_runs. rewrite fields_append. apply filter_app. Qed.

Lemma starts_slash_append a b :
  a <> "" -> starts_slash (a ++ b) = starts_slash a.
Proof. destruct a; [intros H; contradiction H; reflexivity | reflexivity]. Qed.

Lemma ends_slash_append a b :
  b <> "" -> ends_slash (a ++ b) = ends_slash b.
Proof.
  intros Hb. induction a as [|c a IH]; [reflexivity|].
  change (String c a ++ b) with (String c (a ++ b)).
  destruct (a ++ b) as [|d r] eqn:Hab; [|exact IH].
  destruct a; [contradiction Hb | discriminate].
Qed.

Lemma length_append a b :
  String.length (a ++ b) = String.length a + String.length b.
Proof.
  induction a as [|c a IH]; [reflexivity|].
  change (String c a ++ b) with (String c (a ++ b)). simpl. rewrite IH. reflexivity.
Qed.

Lemma nul_free_append a b :
  nul_free a = true -> nul_free b = true -> nul_free (a ++ b) = true.
Proof.
  intros Ha Hb. induction a as [|c a IH]; [exact Hb|].
  change (String c a ++ b) with (String c (a ++ b)).
  simpl in *. apply andb_prop in Ha as [Hc Ha]. rewrite Hc, (IH Ha). reflexivity.
Qed.

Lemma ends_slash_after_run s :
  s <> "" -> starts_slash s = false -> ends_slash s = true ->
  1 < String.length s.
Proof.
  destruct s as [|c [|d s]]; simpl; [congruence | congruence | lia].
Qed.

(** X12: appending a relative path to a path appends the segments: for
    C strings [p] and [q], [p] not empty and not ending with '/', [q] not
    empty and not starting with '/', the segments of [p], a '/', [q] are
    those of [p] followed by those of [q]. *)
Theorem split_append (p q : string) (st : state) :
  nul_free p = true -> nul_free q = true ->
  p <> "" -> ends_slash p = false ->
  q <> "" -> starts_slash q = false ->
  exists sp sq,
    split p st = Some (sp, length sp, temp st) /\
    split q st = Some (sq, length sq, temp st) /\
    split (p ++ "/" ++ q) st = Some ((sp ++ sq)%list, length sp + length sq, temp st).
Proof.
  intros Hp Hq Hpne Hpend Hqne Hqstart.
  exists (collected p), (collected q).
  split; [apply split_spec|]. split; [apply split_spec|].
  rewrite split_spec.
  assert (Happ : collected (p ++ "/" ++ q) = (collected p ++ collected q)%list);
    [|rewrite Happ, length_app; reflexivity].
  rewrite !collected_nul_free
    by (try apply nul_free_append; auto).
  unfold text_segments.
  change ("/" ++ q) with (String "/" q).
  rewrite (starts_slash_append p _ Hpne), maximal_runs_append.
  rewrite (ends_slash_append p (String "/" q)) by discriminate.
  change (ends_slash (String "/" q))
    with (match q with "" => true | String _ _ => ends_slash q end).
  rewrite Hpend, Hqstart, andb_false_r, length_append. simpl app.
  destruct q as [|d q]; [contradiction Hqne; reflexivity|].
  rewrite app_nil_r, <- !app_assoc. f_equal. f_equal.
  destruct (ends_slash (String d q)) eqn:He; [|rewrite !andb_false_r; reflexivity].
  rewrite !andb_true_r.
  rewrite (proj2 (Nat.ltb_lt _ _) (ends_slash_after_run _ Hqne Hqstart He)).
  rewrite (proj2 (Nat.ltb_lt 1 _)); [reflexivity|].
  destruct p; [contradiction Hpne; reflexivity | simpl; lia].
Qed.

Lemma split_append_witness :
  nul_free "/usr" = true /\ nul_free "lib/" = true /\
  "/usr" <> "" /\ ends_slash "/usr" = false /\
  "lib/" <> "" /\ starts_slash "lib/" = false /\
  exists sp sq,
    split "/usr" st0 = Some (sp, length sp, temp st0) /\
    split "lib/" st0 = Some (sq, length sq, temp st0) /\
    split ("/usr" ++ "/" ++ "lib/") st0
    = Some ((sp ++ sq)%list, length sp + length sq, temp st0).
Proof.
  repeat (split; [first [reflexivity | discriminate]|]).
  apply (split_append "/usr" "lib/" st0); first [reflexivity | discriminate].
Defined.

(** ** The inner loops *)

Lemma skip_separators_between path endPos curPos i :
  curPos <= i < skip_separators path endPos curPos ->
  char_at path i = "/"%char.
Proof.
  remember (endPos - curPos) as n eqn:Hn.
  revert curPos Hn. induction n as [n IH] using lt_wf_ind. intros curPos Hn.
  rewrite skip_separators_step.
  destruct ((curPos <? endPos)%nat && is_slash (char_at path curPos)) eqn:Hc;
    [|lia].
  apply andb_prop in Hc as [Hlt Hs]. apply Nat.ltb_lt in Hlt.
  intros Hi. destruct (decide (i = curPos)) as [->|Hne].
  - apply is_slash_eq, Hs.
  - apply (IH (endPos - S curPos) ltac:(lia) (S curPos) eq_refl). lia.
Qed.

Lemma scan_segment_between path endPos curEnd i :
  curEnd <= i < scan_segment path endPos curEnd ->
  char_at path i <> "/"%char.
Proof.
  remember (endPos - curEnd) as n eqn:Hn.
  revert curEnd Hn. induction n as [n IH] using lt_wf_ind. intros curEnd Hn.
  rewrite scan_segment_step.
  destruct ((curEnd <? endPos)%nat && negb (is_slash (char_at path curEnd))) eqn:Hc;
    [|lia].
  apply andb_prop in Hc as [Hlt Hs]. apply Nat.ltb_lt in Hlt.
  apply negb_true_iff in Hs.
  intros Hi. destruct (decide (i = curEnd)) as [->|Hne].
  - apply Ascii.eqb_neq, Hs.
  - apply (IH (endPos - S curEnd) ltac:(lia) (S curEnd) eq_refl). lia.
Qed.

Lemma skip_separators_le path endPos curPos :
  curPos <= endPos -> skip_separators path endPos curPos <= endPos.
Proof.
  remember (endPos - curPos) as n eqn:Hn.
  revert curPos Hn. induction n as [n IH] using lt_wf_ind. intros curPos Hn Hle.
  rewrite skip_separators_step.
  destruct ((curPos <? endPos)%nat && is_slash (char_at path curPos)) eqn:Hc;
    [|exact Hle].
  apply andb_prop in Hc as [Hlt _]. apply Nat.ltb_lt in Hlt.
  apply (IH (endPos - S curPos)); lia.
Qed.

Lemma scan_segment_le path endPos curEnd :
  curEnd <= endPos -> scan_segment path endPos curEnd <= endPos.
Proof.
  remember (endPos - curEnd) as n eqn:Hn.
  revert curEnd Hn. induction n as [n IH] using lt_wf_ind. intros curEnd Hn Hle.
  rewrite scan_segment_step.
  destruct ((curEnd <? endPos)%nat && negb (is_slash (char_at path curEnd))) eqn:Hc;
    [|exact Hle].
  apply andb_prop in Hc as [Hlt _]. apply Nat.ltb_lt in Hlt.
  apply (IH (endPos - S curEnd)); lia.
Qed.

(** X13: where the two inner loops stop.  Started at a position not past
    the end, the first one stops at the first position from there that
    holds a character other than '/', the second at the first that holds
    a '/'; each stops at the end when there is no such position, and
    neither goes past the end. *)
Theorem inner_loops_stop (path : string) (endPos curPos : nat) :
  curPos <= endPos ->
  (curPos <= skip_separators path endPos curPos <= endPos /\
   (forall i, curPos <= i < skip_separators path endPos curPos ->
              char_at path i = "/"%char) /\
   (skip_separators path endPos curPos < endPos ->
    char_at path (skip_separators path endPos curPos) <> "/"%char)) /\
  (curPos <= scan_segment path endPos curPos <= endPos /\
   (forall i, curPos <= i < scan_segment path endPos curPos ->
              char_at path i <> "/"%char) /\
   (scan_segment path endPos curPos < endPos ->
    char_at path (scan_segment path endPos curPos) = "/"%char)).
Proof.
  intros Hle. split.
  - destruct (skip_separators_stop path endPos curPos) as [Hge Hstop].
    pose proof (skip_separators_le path endPos curPos Hle) as Hin.
    split; [lia|]. split; [apply skip_separators_between|].
    intros Hlt. rewrite (proj2 (Nat.ltb_lt _ _) Hlt) in Hstop. simpl in Hstop.
    apply Ascii.eqb_neq, Hstop.
  - pose proof (scan_segment_ge path endPos curPos) as Hge.
    pose proof (scan_segment_stop path endPos curPos) as Hstop.
    pose proof (scan_segment_le path endPos curPos Hle) as Hin.
    split; [lia|]. split; [apply scan_segment_between|].
    intros Hlt. rewrite (proj2 (Nat.ltb_lt _ _) Hlt) in Hstop. simpl in Hstop.
    apply negb_false_iff in Hstop. apply is_slash_eq, Hstop.
Qed.

Lemma inner_loops_stop_witness :
  1 <= 6 /\
  skip_separators "a///bc" 6 1 = 4 /\
  scan_segment "a///bc" 6 4 = 6 /\
  (1 <= skip_separators "a///bc" 6 1 <= 6 /\
   (forall i, 1 <= i < skip_separators "a///bc" 6 1 ->
              char_at "a///bc" i = "/"%char) /\
   (skip_separators "a///bc" 6 1 < 6 ->
    char_at "a///bc" (skip_separators "a///bc" 6 1) <> "/"%char)).
Proof.
  split; [lia|]. split; [reflexivity|]. split; [reflexivity|].
  apply (inner_loops_stop "a///bc" 6 1). lia.
Defined.

(** ** The main loop *)

(** X14: the main loop only appends.  Started at any position up to the
    end of the path, on a vector with any contents, it leaves the earlier
    elements in place, pushes after them the maximal runs of the part of
    the path it has still to read, in order, and changes nothing else. *)
Theorem scan_loop_appends (path : string) (strings : addr) (curPos : nat)
    (st : state) (elems : list string) :
  curPos <= strlen path ->
  heap st !! strings = Some (VectorString elems) ->
  scan_loop path (strlen path) strings curPos st
  = Some (tt, set_heap
                (<[strings := VectorString
                     (elems ++ maximal_runs
                                 (substring curPos (strlen path - curPos) path))]>
                   (heap st)) st).
Proof.
  intros Hle Hv.
  apply (scan_loop_spec path (strlen path) strings (strlen_le_length path)
           curPos st elems Hle Hv).
Qed.

Lemma scan_loop_appends_witness :
  2 <= strlen "a/b//c" /\
  heap (mkState {[ 5 := VectorString ["a"] ]} 0 NULL) !! 5
  = Some (VectorString ["a"]) /\
  scan_loop "a/b//c" (strlen "a/b//c") 5 2
    (mkState {[ 5 := VectorString ["a"] ]} 0 NULL)
  = Some (tt, mkState {[ 5 := VectorString ["a"; "b"; "c"] ]} 0 NULL).
Proof.
  split; [simpl; lia|]. split; [reflexivity|].
  rewrite (scan_loop_appends "a/b//c" 5 2
             (mkState {[ 5 := VectorString ["a"] ]} 0 NULL) ["a"]);
    [vm_compute; reflexivity | simpl; lia | reflexivity].
Defined.
